(** * Physics core of the gravity simulator ([simulation.py])

    A shallow embedding of [accel], [velocity_verlet_step], [merge_bodies],
    [handle_collisions] and [trigger_supernova], and the properties of the
    design document that hold of them.

    Numbers.  Python floats and numpy [float64] arrays are read as real
    numbers: every statement below is about the exact arithmetic the code
    writes down, not about its rounding.  A 2-vector is a pair of reals.

    Objects.  A [Body] has no [__eq__], so Python compares bodies by
    identity.  The field [oid] stands for that identity; the constructor
    takes it from an allocation counter. *)

From Stdlib Require Import Reals Lra Lia ZArith String Sorted.
From stdpp Require Import base decidable option list gmap.

Local Open Scope R_scope.

(** ** 2-vectors (numpy arrays of shape (2,)) *)

Definition vec : Type := R * R.

Definition vzero : vec := (0, 0).
Definition vadd (a b : vec) : vec := (a.1 + b.1, a.2 + b.2).
Definition vsub (a b : vec) : vec := (a.1 - b.1, a.2 - b.2).
(** [a * s], [s * a] and [a / s] for an array [a] and a scalar [s] *)
Definition vmuls (a : vec) (s : R) : vec := (a.1 * s, a.2 * s).
Definition smulv (s : R) (a : vec) : vec := (s * a.1, s * a.2).
Definition vdivs (a : vec) (s : R) : vec := (a.1 / s, a.2 / s).
(** [np.sum(a * a)] over the two components *)
Definition vdot (a b : vec) : R := a.1 * b.1 + a.2 * b.2.
(** [np.linalg.norm] *)
Definition vnorm (a : vec) : R := sqrt (vdot a a).
(** [np.sum(..., axis=...)] of a sequence of 2-vectors *)
Definition vsum (l : list vec) : vec := foldr vadd vzero l.

(** ** Constants *)

Definition G : R := 98 / 10.
Definition SOFTENING : R := 1 / 1000.

(** ** Bodies *)

Record Body : Type := mkBody {
  oid : nat;
  position : vec;
  velocity : vec;
  mass : R;
  radius : R;
  color : string;
  body_type : string
}.

(** ** [accel] *)

(** [r[i][j] = positions[j] - positions[i]] *)
Definition accel_r (positions : list vec) : list (list vec) :=
  (fun pi => (fun pj => vsub pj pi) <$> positions) <$> positions.

(** [dist2 = np.sum(r * r, axis=2) + eps**2] *)
Definition accel_dist2 (eps : R) (r : list (list vec)) : list (list R) :=
  (fun row : list vec => (fun d => vdot d d + eps ^ 2) <$> row) <$> r.

(** [np.fill_diagonal(m, x)] *)
Definition fill_diagonal (m : list (list R)) (x : R) : list (list R) :=
  imap (fun i row => <[i := x]> row) m.

(** [inv_dist3 = dist2 ** (-1.5)], then the diagonal set to zero.
    Every entry of [dist2] is at least [eps**2], positive for the default
    softening, where [**] is the real power function. *)
Definition accel_inv_dist3 (dist2 : list (list R)) : list (list R) :=
  fill_diagonal
    ((fun row : list R => (fun x => Rpower x (- (15 / 10))) <$> row) <$> dist2) 0.

(** One row of [np.sum(r * inv_dist3[:,:,newaxis] * masses[newaxis,:,newaxis], axis=1)] *)
Definition accel_row (masses : list R) (ri : list vec) (wi : list R) : vec :=
  vsum (zip_with (fun rw m => vmuls rw m) (zip_with vmuls ri wi) masses).

(** [positions] has shape (N, 2) and [masses] shape (N,): the callers pass
    the positions and masses of the same list of bodies. *)
Definition accel_with (positions : list vec) (masses : list R) (G_const eps : R)
  : list vec :=
  match positions with
  | [] => []
  | _ =>
    let r := accel_r positions in
    let dist2 := accel_dist2 eps r in
    let inv_dist3 := accel_inv_dist3 dist2 in
    zip_with (fun ri wi => smulv G_const (accel_row masses ri wi)) r inv_dist3
  end.

(** [accel] with its default arguments [G_const = G], [eps = SOFTENING] *)
Definition accel (positions : list vec) (masses : list R) : list vec :=
  accel_with positions masses G SOFTENING.

(** The entries of row [i] of [r] and of [inv_dist3] off the diagonal, for
    the body [b] at column [j] and [pi = positions[i]] *)
Definition rel (pi : vec) (b : Body) : vec := vsub (position b) pi.
Definition weight (pi : vec) (b : Body) : R :=
  Rpower (vdot (rel pi b) (rel pi b) + SOFTENING ^ 2) (- (15 / 10)).

(** ** [velocity_verlet_step] *)

(** [b.position = pos; b.velocity = vel]: the same object, two fields rebound *)
Definition set_state (b : Body) (pos vel : vec) : Body :=
  {| oid := oid b; position := pos; velocity := vel; mass := mass b;
     radius := radius b; color := color b; body_type := body_type b |}.

(** The list is updated in place: the function returns the bodies as they
    are after the call, in the same order. *)
Definition velocity_verlet_step (bodies : list Body) (dt : R) : list Body :=
  match bodies with
  | [] => []
  | _ =>
    let positions := position <$> bodies in
    let velocities := velocity <$> bodies in
    let masses := mass <$> bodies in
    let a := accel positions masses in
    let velocities_half :=
      zip_with (fun v ai => vadd v (vmuls (smulv (1 / 2) ai) dt)) velocities a in
    let positions_new :=
      zip_with (fun p vh => vadd p (vmuls vh dt)) positions velocities_half in
    let a_new := accel positions_new masses in
    let velocities_new :=
      zip_with (fun vh an => vadd vh (vmuls (smulv (1 / 2) an) dt))
               velocities_half a_new in
    zip_with (fun b pv => set_state b pv.1 pv.2) bodies
             (zip positions_new velocities_new)
  end.

(** ** The world outside the arguments: object allocation and [np.random] *)

(** [np.random], by its documented contract: [randint(lo, hi)] is an integer
    of [lo, hi), [uniform(lo, hi)] and [rand()] are reals of [lo, hi) and
    [0, 1), [choice(l)] is an element of [l].  [Src] is the generator's state. *)
Class RandomSource (Src : Type) : Type := {
  randint : Z -> Z -> Src -> Z * Src;
  uniform : R -> R -> Src -> R * Src;
  choice : list string -> Src -> string * Src;
  rand : Src -> R * Src;
  randint_range : forall lo hi s,
    (lo < hi)%Z -> (lo <= (randint lo hi s).1 < hi)%Z;
  uniform_range : forall lo hi s,
    lo < hi -> lo <= (uniform lo hi s).1 < hi;
  choice_elem : forall l s, l <> [] -> (choice l s).1 ∈ l;
  rand_range : forall s, 0 <= (rand s).1 < 1
}.

Record World (Src : Type) : Type := mkWorld {
  next_oid : nat;
  rng : Src
}.
Arguments mkWorld {Src} _ _.
Arguments next_oid {Src} _.
Arguments rng {Src} _.

(** Computations that allocate objects or draw random numbers *)
Definition Sim (Src A : Type) : Type := World Src -> A * World Src.

#[export] Instance sim_ret {Src} : MRet (Sim Src) := fun A (x : A) w => (x, w).
#[export] Instance sim_bind {Src} : MBind (Sim Src) :=
  fun A B (f : A -> Sim Src B) (c : Sim Src A) w => let r := c w in f r.1 r.2.

(** [Body(position, velocity, mass, radius, color, body_type)]: a new object *)
Definition Body_init {Src} (position velocity : vec) (mass radius : R)
    (color body_type : string) : Sim Src Body :=
  fun w =>
    (mkBody (next_oid w) position velocity mass radius color body_type,
     mkWorld (S (next_oid w)) (rng w)).

Definition draw {Src A} (f : Src -> A * Src) : Sim Src A :=
  fun w => let r := f (rng w) in (r.1, mkWorld (next_oid w) r.2).

(** [np.random.uniform(lo, hi, size=2)] *)
Definition uniform2 {Src} `{RandomSource Src} (lo hi : R) : Sim Src vec :=
  x ← draw (uniform lo hi); y ← draw (uniform lo hi); mret (x, y).

(** ** [merge_bodies] *)

(** [x ** 0.5] for [x >= 0]; both uses below take it of a sum of squares or
    of a mass drawn from [0.05, 1.5). *)
Definition pow_half (x : R) : R := sqrt x.

Definition merge_bodies {Src} (b1 b2 : Body) : Sim Src Body :=
  let total_mass := mass b1 + mass b2 in
  let pos := vdivs (vadd (vmuls (position b1) (mass b1))
                         (vmuls (position b2) (mass b2))) total_mass in
  let vel := vdivs (vadd (vmuls (velocity b1) (mass b1))
                         (vmuls (velocity b2) (mass b2))) total_mass in
  let radius' := pow_half (radius b1 ^ 2 + radius b2 ^ 2) in
  let body_type' :=
    if (body_type b1 =? "blackhole")%string || (body_type b2 =? "blackhole")%string
    then "blackhole"%string
    else if Rge_dec (mass b1) (mass b2) then body_type b1 else body_type b2 in
  let color' := if Rge_dec (mass b1) (mass b2) then color b1 else color b2 in
  Body_init pos vel total_mass radius' color' body_type'.

(** ** [handle_collisions] *)

(** The loop variables [merged_flags], [new_bodies] and [flashes] *)
Record hc_locals : Type := mkLocals {
  merged_flags : gset nat;
  new_bodies : list Body;
  flashes : list (Body * string)
}.

(** [merged.body_type = "blackhole"; merged.color = "black"] *)
Definition set_blackhole (b : Body) : Body :=
  {| oid := oid b; position := position b; velocity := velocity b;
     mass := mass b; radius := radius b; color := "black";
     body_type := "blackhole" |}.

(** [np.linalg.norm(bi.position - bj.position) < bi.radius + bj.radius] *)
Definition overlapping (bi bj : Body) : Prop :=
  vnorm (vsub (position bi) (position bj)) < radius bi + radius bj.

Definition overlapping_dec (bi bj : Body)
  : {overlapping bi bj} + {~ overlapping bi bj} :=
  Rlt_dec (vnorm (vsub (position bi) (position bj))) (radius bi + radius bj).

(** The merged body of a colliding pair: [merge_bodies(bi, bj)], made a
    black "blackhole" when either input is one *)
Definition hc_merged {Src} (bi bj : Body) : Sim Src Body :=
  if (body_type bi =? "blackhole")%string || (body_type bj =? "blackhole")%string
  then m ← merge_bodies bi bj; mret (set_blackhole m)
  else merge_bodies bi bj.

(** [final_color = bi.color if bi.mass >= bj.mass else bj.color] *)
Definition final_color (bi bj : Body) : string :=
  if Rge_dec (mass bi) (mass bj) then color bi else color bj.

(** The body of [if dist < (bi.radius + bj.radius):] up to the [break] *)
Definition hc_merge {Src} (i j : nat) (bi bj : Body) (st : hc_locals)
  : Sim Src hc_locals :=
  merged ← hc_merged bi bj;
  mret {| merged_flags := merged_flags st ∪ {[i; j]};
          new_bodies := new_bodies st ++ [merged];
          flashes := flashes st ++ [(merged, final_color bi bj)] |}.

(** [for j in range(i + 1, N):], over the indices [js] still to visit;
    the boolean is [did_merge].  The indices come from [range(N)], so
    [bodies[j]] exists; the [None] branches of the two loops are never taken. *)
Fixpoint hc_inner {Src} (bodies : list Body) (i : nat) (bi : Body) (js : list nat)
    (st : hc_locals) : Sim Src (bool * hc_locals) :=
  match js with
  | [] => mret (false, st)
  | j :: js' =>
    if decide (j ∈ merged_flags st) then hc_inner bodies i bi js' st
    else
      match bodies !! j with
      | None => hc_inner bodies i bi js' st
      | Some bj =>
        if overlapping_dec bi bj
        then st' ← hc_merge i j bi bj st; mret (true, st')
        else hc_inner bodies i bi js' st
      end
  end.

(** [for i in range(N):], over the indices [idxs] still to visit *)
Fixpoint hc_outer {Src} (bodies : list Body) (N : nat) (idxs : list nat)
    (st : hc_locals) : Sim Src hc_locals :=
  match idxs with
  | [] => mret st
  | i :: idxs' =>
    if decide (i ∈ merged_flags st) then hc_outer bodies N idxs' st
    else
      match bodies !! i with
      | None => hc_outer bodies N idxs' st
      | Some bi =>
        r ← hc_inner bodies i bi (seq (i + 1) (N - (i + 1))) st;
        let st' :=
          if (r.1 : bool) then r.2
          else {| merged_flags := merged_flags r.2;
                  new_bodies := new_bodies r.2 ++ [bi];
                  flashes := flashes r.2 |} in
        hc_outer bodies N idxs' st'
      end
  end.

Definition handle_collisions {Src} (bodies : list Body)
  : Sim Src (list Body * list (Body * string)) :=
  let N := length bodies in
  if (N <=? 1)%nat then mret (bodies, [])
  else
    st ← hc_outer bodies N (seq 0 N) (mkLocals ∅ [] []);
    mret (new_bodies st, flashes st).

(** ** [trigger_supernova] *)

Definition MASS_THRESHOLD : R := 20.

(** [bodies.remove(star)]: the first entry that is [star] is dropped;
    [None] is the [ValueError] raised when there is none. *)
Fixpoint list_remove (bodies : list Body) (star : Body) : option (list Body) :=
  match bodies with
  | [] => None
  | b :: bs =>
    if (oid b =? oid star)%nat then Some bs
    else bs' ← list_remove bs star; Some (b :: bs')
  end.

Definition palette : list string :=
  ["orange"; "red"; "yellow"; "white"]%string.

(** One iteration of [for _ in range(n_frags):] *)
Definition make_fragment {Src} `{RandomSource Src} (pos vel : vec) : Sim Src Body :=
  m ← draw (uniform (5 / 100) (15 / 10));
  dv ← uniform2 (- 2) 2;
  let v := vadd vel dv in
  offset ← uniform2 (- (5 / 10)) (5 / 10);
  color ← draw (choice palette);
  Body_init (vadd pos offset) v m (Rmax (2 / 100) (pow_half m * (3 / 100)))
            color "planet".

Fixpoint make_fragments {Src} `{RandomSource Src} (n : nat) (pos vel : vec)
    (fragments : list Body) : Sim Src (list Body) :=
  match n with
  | O => mret fragments
  | S n' =>
    frag ← make_fragment pos vel;
    make_fragments n' pos vel (fragments ++ [frag])
  end.

Definition make_remnant {Src} `{RandomSource Src} (star : Body) (pos vel : vec)
  : Sim Src Body :=
  u ← draw rand;
  if Rlt_dec u (75 / 100)
  then Body_init pos vel (mass star * (4 / 10))
                 (Rmax (5 / 100) (radius star * (6 / 10))) "darkgray" "blackhole"
  else Body_init pos vel (mass star * (2 / 10))
                 (Rmax (4 / 100) (radius star * (5 / 10))) "blue" "star".

(** The list [bodies] is changed in place: the result pairs the list as it
    is after the call with the returned list of new bodies. *)
Definition trigger_supernova {Src} `{RandomSource Src} (bodies : list Body)
    (star : Body) : Sim Src (list Body * list Body) :=
  if Rlt_dec (mass star) MASS_THRESHOLD then mret (bodies, [])
  else
    let bodies' :=
      match list_remove bodies star with
      | Some l => l
      | None => bodies
      end in
    let pos := position star in
    let vel := velocity star in
    n_frags ← draw (randint 6 12);
    fragments ← make_fragments (Z.to_nat n_frags) pos vel [];
    remnant ← make_remnant star pos vel;
    mret (bodies', fragments ++ [remnant]).

(** * The design document's formulas *)

(** [m_j · (p_j − p_i) / (‖p_j − p_i‖² + ε²)^1.5]: what body [bj] adds to the
    acceleration at the point [pi] *)
Definition pull (pi : vec) (bj : Body) : vec :=
  let d := vsub (position bj) pi in
  vdivs (smulv (mass bj) d) (Rpower (vdot d d + SOFTENING ^ 2) (15 / 10)).

(** The bodies at every index [j ≠ i] *)
Definition others (i : nat) (bodies : list Body) : list Body :=
  take i bodies ++ drop (S i) bodies.

(** [a_i = G · Σ_{j≠i} m_j · (p_j − p_i) / (‖p_j − p_i‖² + ε²)^1.5] *)
Definition gravity (bodies : list Body) (i : nat) (bi : Body) : vec :=
  smulv G (vsum (pull (position bi) <$> others i bodies)).

(** Velocity Verlet, body by body, from the state [bodies] before the step *)

(** [v_half = v + 0.5·a(t)·dt] *)
Definition half_velocity (bodies : list Body) (dt : R) (i : nat) (b : Body) : vec :=
  vadd (velocity b) (vmuls (smulv (1 / 2) (gravity bodies i b)) dt).

(** [p' = p + v_half·dt] *)
Definition stepped_position (bodies : list Body) (dt : R) (i : nat) (b : Body)
  : vec :=
  vadd (position b) (vmuls (half_velocity bodies dt i b) dt).

(** The bodies at their new positions [p'], from which [a(t+dt)] is taken *)
Definition moved (bodies : list Body) (dt : R) : list Body :=
  imap (fun i b => set_state b (stepped_position bodies dt i b) (velocity b))
       bodies.

(** [v' = v_half + 0.5·a(t+dt)·dt] *)
Definition stepped_velocity (bodies : list Body) (dt : R) (i : nat) (b : Body)
  : vec :=
  vadd (half_velocity bodies dt i b)
       (vmuls (smulv (1 / 2)
                 (gravity (moved bodies dt) i
                    (set_state b (stepped_position bodies dt i b) (velocity b))))
              dt).

Definition verlet (bodies : list Body) (dt : R) : list Body :=
  imap (fun i b => set_state b (stepped_position bodies dt i b)
                                (stepped_velocity bodies dt i b)) bodies.

(** * Collision pairing, as the design document words it *)

(** What one pass does with the body at index [i]: it is carried over, or it
    is merged with the body at index [j]. *)
Inductive event : Type :=
  | Carried (i : nat)
  | Merged (i j : nat).

Definition overlapping_at (bodies : list Body) (i j : nat) : Prop :=
  exists bi bj, bodies !! i = Some bi /\ bodies !! j = Some bj /\ overlapping bi bj.

(** [j] is the first index after [i], not yet consumed, whose body overlaps
    the body at [i]. *)
Definition first_partner (bodies : list Body) (consumed : gset nat) (i j : nat)
  : Prop :=
  (i < j < length bodies)%nat /\ (j ∉ consumed) /\ overlapping_at bodies i j
  /\ forall k, (i < k < j)%nat -> k ∉ consumed -> ~ overlapping_at bodies i k.

Definition no_partner (bodies : list Body) (consumed : gset nat) (i : nat) : Prop :=
  forall j, (i < j < length bodies)%nat -> j ∉ consumed -> ~ overlapping_at bodies i j.

(** [pass bodies i consumed evs]: visiting the indices from [i] on in
    ascending order, with the indices of [consumed] already merged away,
    yields the events [evs]. *)
Inductive pass (bodies : list Body) : nat -> gset nat -> list event -> Prop :=
  | pass_end i consumed :
      (length bodies <= i)%nat -> pass bodies i consumed []
  | pass_consumed i consumed evs :
      (i < length bodies)%nat -> i ∈ consumed ->
      pass bodies (S i) consumed evs -> pass bodies i consumed evs
  | pass_merge i j consumed evs :
      (i < length bodies)%nat -> i ∉ consumed ->
      first_partner bodies consumed i j ->
      pass bodies (S i) (consumed ∪ {[i; j]}) evs ->
      pass bodies i consumed (Merged i j :: evs)
  | pass_carry i consumed evs :
      (i < length bodies)%nat -> i ∉ consumed ->
      no_partner bodies consumed i ->
      pass bodies (S i) consumed evs ->
      pass bodies i consumed (Carried i :: evs).

(** The bodies and flash hints the events stand for: a carried body is the
    body itself, a merged pair is the new body of [hc_merged] with the hint
    [final_color]; new bodies are created in the order of the events. *)
Fixpoint realise {Src} (bodies : list Body) (evs : list event)
  : Sim Src (list Body * list (Body * string)) :=
  match evs with
  | [] => mret ([], [])
  | Carried i :: evs' =>
    match bodies !! i with
    | Some bi => r ← realise bodies evs'; mret (bi :: fst r, snd r)
    | None => realise bodies evs'
    end
  | Merged i j :: evs' =>
    match bodies !! i, bodies !! j with
    | Some bi, Some bj =>
      merged ← hc_merged bi bj;
      r ← realise bodies evs';
      mret (merged :: fst r, (merged, final_color bi bj) :: snd r)
    | _, _ => realise bodies evs'
    end
  end.

(** The heavier of a colliding pair, the first-listed one on equal masses *)
Definition heavier (bi bj : Body) : Body :=
  if Rge_dec (mass bi) (mass bj) then bi else bj.

(** The indices an event uses up *)
Definition event_indices (e : event) : list nat :=
  match e with Carried i => [i] | Merged i j => [i; j] end.

(** The index an event is about: its body, or the first of its pair *)
Definition event_index (e : event) : nat :=
  match e with Carried i => i | Merged i _ => i end.

(** [m] is the pair [bi], [bj] merged, field by field: the masses added,
    position and velocity averaged by mass, the radius
    [sqrt(r_i² + r_j²)]; a black "blackhole" when either body is a black
    hole, else of the kind and colour of the heavier body *)
Definition merger_of (bi bj m : Body) : Prop :=
  mass m = mass bi + mass bj
  /\ position m = vdivs (vadd (vmuls (position bi) (mass bi))
                              (vmuls (position bj) (mass bj)))
                        (mass bi + mass bj)
  /\ velocity m = vdivs (vadd (vmuls (velocity bi) (mass bi))
                              (vmuls (velocity bj) (mass bj)))
                        (mass bi + mass bj)
  /\ radius m = sqrt (radius bi ^ 2 + radius bj ^ 2)
  /\ (body_type bi = "blackhole"%string \/ body_type bj = "blackhole"%string ->
      body_type m = "blackhole"%string /\ color m = "black"%string)
  /\ (body_type bi <> "blackhole"%string -> body_type bj <> "blackhole"%string ->
      body_type m = body_type (heavier bi bj)
      /\ color m = color (heavier bi bj)).

(** [outcome bodies evs out hints]: the list [out] holds, event by event
    and in the order of the events, the carried body itself or a merger of
    the pair; [hints] holds one entry for every merger, in the same order,
    naming the merged body and the colour of the heavier of the pair. *)
Inductive outcome (bodies : list Body)
  : list event -> list Body -> list (Body * string) -> Prop :=
  | outcome_end : outcome bodies [] [] []
  | outcome_carried i bi evs out hints :
      bodies !! i = Some bi ->
      outcome bodies evs out hints ->
      outcome bodies (Carried i :: evs) (bi :: out) hints
  | outcome_merged i j bi bj m evs out hints :
      bodies !! i = Some bi -> bodies !! j = Some bj ->
      merger_of bi bj m ->
      outcome bodies evs out hints ->
      outcome bodies (Merged i j :: evs) (m :: out)
              ((m, color (heavier bi bj)) :: hints).

(** * Supernova products, as the design document words them *)

(** A fragment of [star]: mass in [0.05, 1.5), the star's velocity and
    position perturbed componentwise within [−2, 2) and [−0.5, 0.5), radius
    [max(0.02, sqrt(mass)·0.03)], a palette colour, kind planet *)
Definition is_fragment_of (star f : Body) : Prop :=
  5 / 100 <= mass f < 15 / 10
  /\ (exists dv : vec, velocity f = vadd (velocity star) dv
        /\ - 2 <= dv.1 < 2 /\ - 2 <= dv.2 < 2)
  /\ (exists offset : vec, position f = vadd (position star) offset
        /\ - (5 / 10) <= offset.1 < 5 / 10 /\ - (5 / 10) <= offset.2 < 5 / 10)
  /\ radius f = Rmax (2 / 100) (sqrt (mass f) * (3 / 100))
  /\ color f ∈ palette
  /\ body_type f = "planet"%string.

(** The remnant of [star] for the draw [u] of [rand()]: a black hole of 0.4
    of the mass when [u < 0.75], else a star of 0.2 of the mass; position and
    velocity are the star's *)
Definition is_remnant_of (star r : Body) (u : R) : Prop :=
  position r = position star /\ velocity r = velocity star
  /\ if Rlt_dec u (75 / 100)
     then body_type r = "blackhole"%string
          /\ mass r = 4 / 10 * mass star
          /\ radius r = Rmax (5 / 100) (6 / 10 * radius star)
     else body_type r = "star"%string
          /\ mass r = 2 / 10 * mass star
          /\ radius r = Rmax (4 / 100) (5 / 10 * radius star).

(** [f] is the fragment of [star] made of the next six numbers of the
    random source in state [s]: its mass, the two components of its velocity
    perturbation, the two components of its position offset and its colour,
    drawn in this order from the ranges of [is_fragment_of]; [s'] is the state
    the source is left in. *)
Definition fragment_drawn {Src} `{RandomSource Src} (star : Body) (s : Src)
    (f : Body) (s' : Src) : Prop :=
  let m := uniform (5 / 100) (15 / 10) s in
  let vx := uniform (- 2) 2 m.2 in
  let vy := uniform (- 2) 2 vx.2 in
  let ox := uniform (- (5 / 10)) (5 / 10) vy.2 in
  let oy := uniform (- (5 / 10)) (5 / 10) ox.2 in
  let c := choice palette oy.2 in
  mass f = m.1
  /\ velocity f = vadd (velocity star) (vx.1, vy.1)
  /\ position f = vadd (position star) (ox.1, oy.1)
  /\ radius f = Rmax (2 / 100) (sqrt (mass f) * (3 / 100))
  /\ color f = c.1
  /\ body_type f = "planet"%string
  /\ s' = c.2.

(** The fragments [fs] are drawn one after the other, taking the source from
    state [s] to state [s']. *)
Inductive fragments_drawn {Src} `{RandomSource Src} (star : Body)
  : Src -> list Body -> Src -> Prop :=
  | fragments_drawn_nil s : fragments_drawn star s [] s
  | fragments_drawn_cons s f s' fs s'' :
      fragment_drawn star s f s' ->
      fragments_drawn star s' fs s'' ->
      fragments_drawn star s (f :: fs) s''.

(** [after] is [bodies] without the first entry that is the object [star],
    or [bodies] itself when it holds none *)
Definition removed_from (bodies : list Body) (star : Body) (after : list Body)
  : Prop :=
  (Forall (fun b => oid b <> oid star) bodies /\ after = bodies)
  \/ (exists l1 s l2, bodies = l1 ++ s :: l2 /\ oid s = oid star
        /\ Forall (fun b => oid b <> oid star) l1 /\ after = l1 ++ l2).

(** The invariant of the data model: positive mass and radius *)
Definition live (b : Body) : Prop := 0 < mass b /\ 0 < radius b.

(** * Sample data *)

(** A random source that always answers with the least value allowed; its
    state says whether [rand] answers 0 ([true]) or 0.9 ([false]). *)
Definition least_randint (lo hi : Z) (s : bool) : Z * bool := (lo, s).
Definition least_uniform (lo hi : R) (s : bool) : R * bool := (lo, s).
Definition least_choice (l : list string) (s : bool) : string * bool :=
  (hd ""%string l, s).
Definition least_rand (s : bool) : R * bool := (if s then 0 else 9 / 10, s).

Lemma least_randint_range (lo hi : Z) (s : bool) :
  (lo < hi)%Z -> (lo <= (least_randint lo hi s).1 < hi)%Z.
Proof. cbn. lia. Qed.

Lemma least_uniform_range (lo hi : R) (s : bool) :
  lo < hi -> lo <= (least_uniform lo hi s).1 < hi.
Proof. cbn. lra. Qed.

Lemma least_choice_elem (l : list string) (s : bool) :
  l <> [] -> (least_choice l s).1 ∈ l.
Proof. destruct l; [done|]. intros _. cbn. apply list_elem_of_here. Qed.

Lemma least_rand_range (s : bool) : 0 <= (least_rand s).1 < 1.
Proof. destruct s; cbn; lra. Qed.

#[export] Instance least_source : RandomSource bool := {|
  randint := least_randint;
  uniform := least_uniform;
  choice := least_choice;
  rand := least_rand;
  randint_range := least_randint_range;
  uniform_range := least_uniform_range;
  choice_elem := least_choice_elem;
  rand_range := least_rand_range
|}.

Definition sample_world : World bool := mkWorld 10 true.

(** Two planets of mass 1 and radius 0.05 at (0,0) and (0.05,0), at rest *)
Definition planet_a : Body :=
  mkBody 0 (0, 0) (0, 0) 1 (5 / 100) "cyan" "planet".
Definition planet_b : Body :=
  mkBody 1 (5 / 100, 0) (0, 0) 1 (5 / 100) "green" "planet".

(** A heavy planet and a light black hole at the same place *)
Definition heavy_planet : Body :=
  mkBody 2 (0, 0) (0, 0) 2 1 "cyan" "planet".
Definition light_hole : Body :=
  mkBody 3 (0, 0) (0, 0) 1 1 "purple" "blackhole".

(** A star below the supernova threshold and one above it *)
Definition small_star : Body :=
  mkBody 4 (0, 0) (0, 0) (199 / 10) (1 / 2) "yellow" "star".
Definition big_star : Body :=
  mkBody 5 (3, 4) (1, 0) 25 (1 / 2) "yellow" "star".


(** * Conserved quantities *)

(** [Σ m_i], [Σ m_i·v_i] and [Σ m_i·p_i] over a list of bodies *)
Definition total_mass (bodies : list Body) : R := foldr Rplus 0 (mass <$> bodies).
Definition momentum (b : Body) : vec := smulv (mass b) (velocity b).
Definition total_momentum (bodies : list Body) : vec := vsum (momentum <$> bodies).
Definition mass_moment (b : Body) : vec := smulv (mass b) (position b).
Definition total_mass_moment (bodies : list Body) : vec :=
  vsum (mass_moment <$> bodies).

(** The net force [Σ m_i·a_i] for accelerations [a] *)
Definition net_force (bodies : list Body) (a : list vec) : vec :=
  vsum (zip_with smulv (mass <$> bodies) a).

(** The opposite vector *)
Definition vneg (a : vec) : vec := (- a.1, - a.2).

(** The same body seen from a frame displaced by [c] and moving at [- u] *)
Definition shifted (c u : vec) (b : Body) : Body :=
  set_state b (vadd (position b) c) (vadd (velocity b) u).

(** No two bodies of the list overlap *)
Definition overlap_free (bodies : list Body) : Prop :=
  forall i j bi bj, (i < j)%nat -> bodies !! i = Some bi -> bodies !! j = Some bj ->
    ~ overlapping bi bj.

(** Gravity sees only where a body is and how heavy it is *)
Definition same_place (b b' : Body) : Prop :=
  position b = position b' /\ mass b = mass b'.

(** [b'] is [b] displaced by [c], with the same mass *)
Definition displaced (c : vec) (b b' : Body) : Prop :=
  position b' = vadd (position b) c /\ mass b' = mass b.

(** The indices of an event are indices of the list *)
Definition event_in_range (bodies : list Body) (e : event) : Prop :=
  Forall (fun k => is_Some (bodies !! k)) (event_indices e).

(** The value of a quantity [mu] at index [k], zero outside the list *)
Definition quantity_at (mu : Body -> vec) (bodies : list Body) (k : nat) : vec :=
  from_option mu vzero (bodies !! k).

(** * The camera of [gui.py] *)

Definition WIDTH : Z := 1100.
Definition HEIGHT : Z := 700.
Definition CENTER_X : Z := WIDTH / 2.
Definition CENTER_Y : Z := HEIGHT / 2.

(** The fields [scale], [offset_x], [offset_y] of the application, and
    [_pan_start] with [_pan_offset_start], which exist only after a first
    button press ([None] before it) *)
Record Camera : Type := mkCamera {
  scale : R;
  offset_x : R;
  offset_y : R;
  pan : option ((Z * Z) * (R * R))
}.

(** The camera [__init__] sets up, before any button press *)
Definition initial_camera : Camera := mkCamera 100 0 0 None.

(** [world_to_screen(wx, wy, parallax)] *)
Definition world_to_screen (cam : Camera) (wx wy parallax : R) : R * R :=
  (wx * scale cam + IZR CENTER_X + offset_x cam * parallax,
   wy * scale cam + IZR CENTER_Y + offset_y cam * parallax).

(** [_on_pan_start(event)], with [event.x], [event.y] *)
Definition on_pan_start (cam : Camera) (x y : Z) : Camera :=
  mkCamera (scale cam) (offset_x cam) (offset_y cam)
           (Some ((x, y), (offset_x cam, offset_y cam))).

(** [_on_pan_move(event)] *)
Definition on_pan_move (cam : Camera) (x y : Z) : Camera :=
  match pan cam with
  | None => cam
  | Some (start, offset_start) =>
    let dx := (x - start.1)%Z in
    let dy := (y - start.2)%Z in
    mkCamera (scale cam) (offset_start.1 + IZR dx) (offset_start.2 + IZR dy)
             (pan cam)
  end.

(** The body the two zoom handlers share, for the factor each picks;
    [None] is the [ZeroDivisionError] of dividing by a zero scale. *)
Definition on_zoom (cam : Camera) (factor : R) (x y : Z) : option Camera :=
  let old_scale := scale cam in
  if Req_dec_T old_scale 0 then None
  else
    let wx := (IZR x - IZR CENTER_X - offset_x cam) / old_scale in
    let wy := (IZR y - IZR CENTER_Y - offset_y cam) / old_scale in
    let scale' := scale cam * factor in
    let sx := wx * scale' + IZR CENTER_X + offset_x cam in
    let sy := wy * scale' + IZR CENTER_Y + offset_y cam in
    Some (mkCamera scale' (offset_x cam + (IZR x - sx))
                   (offset_y cam + (IZR y - sy)) (pan cam)).

(** [_on_zoom_windows(event)], with [event.delta] *)
Definition on_zoom_windows (cam : Camera) (delta x y : Z) : option Camera :=
  on_zoom cam (if (0 <? delta)%Z then 11 / 10 else 9 / 10) x y.

(** [_on_zoom_linux(event)], with [event.num] *)
Definition on_zoom_linux (cam : Camera) (num x y : Z) : option Camera :=
  on_zoom cam (if (num =? 4)%Z then 11 / 10 else 9 / 10) x y.

(** * [trigger_supernova_button] *)

(** [max(stars, key=lambda s: s.mass)] for a non-empty list: a later star
    replaces the best so far only when it is strictly heavier. *)
Definition max_by_mass (first : Body) (rest : list Body) : Body :=
  foldl (fun best s => if Rgt_dec (mass s) (mass best) then s else best)
        first rest.

(** The [target] of the button, [None] when it returns early *)
Definition supernova_target (bodies : list Body) : option Body :=
  match filter (fun b => body_type b = "star"%string) bodies with
  | [] => None
  | s :: rest => Some (max_by_mass s rest)
  end.

(** The dictionary [supernova_flash], keyed by the body object *)
Definition trigger_supernova_button (bodies : list Body)
    (supernova_flash : gmap nat Z) : gmap nat Z :=
  match supernova_target bodies with
  | None => supernova_flash
  | Some target => <[oid target := 18%Z]> supernova_flash
  end.

(** * [apply_gravitational_lensing] *)

(** The body of [for b in self.bodies:] for the star image at [rel] *)
Definition lens_step (cam : Camera) (rel : R * R) (b : Body) : R * R :=
  if (body_type b =? "blackhole")%string then
    let bxy := world_to_screen cam (position b).1 (position b).2 1 in
    let dx := rel.1 - bxy.1 in
    let dy := rel.2 - bxy.2 in
    let dist2 := dx * dx + dy * dy in
    if Rlt_dec dist2 (450 ^ 2) then
      let strength := (mass b + 1) / (dist2 + 1) in
      (rel.1 + dx * (9 / 10000) * strength, rel.2 + dy * (9 / 10000) * strength)
    else rel
  else rel.

(** The corner [(rel_x, rel_y)] handed to [canvas.coords] for a background
    star [(wx, wy, p)] *)
Definition lensed_star (cam : Camera) (bodies : list Body) (wx wy p : R) : R * R :=
  foldl (lens_step cam) (world_to_screen cam wx wy p) bodies.

(** * Angular momentum *)

(** The planar cross product, and [Σ m·(p × v)] *)
Definition cross (a b : vec) : R := a.1 * b.2 - a.2 * b.1.
Definition angular_momentum (b : Body) : R :=
  mass b * cross (position b) (velocity b).
Definition total_angular_momentum (bodies : list Body) : R :=
  foldr Rplus 0 (angular_momentum <$> bodies).

(** What a body adds to the lensing of a star: [m + 1] for a black hole,
    nothing for any other body *)
Definition lens_weight (b : Body) : R :=
  if (body_type b =? "blackhole")%string then mass b + 1 else 0.
Definition total_lens_weight (bodies : list Body) : R :=
  foldr Rplus 0 (lens_weight <$> bodies).


(** * Properties *)

(** ** Vectors *)

Lemma vadd_zero_l v : vadd vzero v = v.
Proof. destruct v; unfold vadd, vzero; simpl; f_equal; lra. Qed.
Lemma vadd_zero_r v : vadd v vzero = v.
Proof. destruct v; unfold vadd, vzero; simpl; f_equal; lra. Qed.
Lemma vadd_assoc a b c : vadd a (vadd b c) = vadd (vadd a b) c.
Proof. unfold vadd; simpl; f_equal; lra. Qed.

Lemma vsum_app l1 l2 : vsum (l1 ++ l2) = vadd (vsum l1) (vsum l2).
Proof.
  induction l1 as [|x l1 IH]; simpl.
  - by rewrite vadd_zero_l.
  - unfold vsum in *. simpl. by rewrite IH, vadd_assoc.
Qed.


(** ** [accel] *)

(** one off-diagonal summand of the code is the formula's summand *)
Lemma weighted_pull (pi : vec) (bj : Body) :
  vmuls (vmuls (vsub (position bj) pi)
               (Rpower (vdot (vsub (position bj) pi) (vsub (position bj) pi)
                        + SOFTENING ^ 2) (- (15 / 10))))
        (mass bj)
  = pull pi bj.
Proof.
  unfold pull, vmuls, vdivs, smulv. cbn [fst snd].
  rewrite Rpower_Ropp. unfold Rdiv. f_equal; ring.
Qed.

Lemma accel_row_map (pi : vec) (w : Body -> R) (l : list Body) :
  accel_row (mass <$> l) (rel pi <$> l) (w <$> l)
  = vsum ((fun b => vmuls (vmuls (rel pi b) (w b)) (mass b)) <$> l).
Proof.
  unfold accel_row. f_equal.
  induction l as [|b l IH]; [done|]. cbn. by rewrite IH.
Qed.

Lemma accel_row_split (pi : vec) (l1 l2 : list Body) (b : Body) :
  accel_row (mass <$> (l1 ++ b :: l2)) (rel pi <$> (l1 ++ b :: l2))
            (<[length l1 := 0]> (weight pi <$> (l1 ++ b :: l2)))
  = vsum (pull pi <$> (l1 ++ l2)).
Proof.
  rewrite !fmap_app, !fmap_cons.
  replace (length l1) with (length (weight pi <$> l1) + 0)%nat
    by (rewrite length_fmap; lia).
  rewrite insert_app_r.
  change (<[0%nat:=0]> (weight pi b :: (weight pi <$> l2))) with (0 :: (weight pi <$> l2)).
  unfold accel_row.
  rewrite !zip_with_app by (by rewrite !length_fmap).
  cbn [zip_with].
  rewrite !zip_with_app by (rewrite ?length_zip_with, ?length_fmap; lia).
  cbn [zip_with]. rewrite !vsum_app.
  pose proof (accel_row_map pi (weight pi) l1) as H1.
  pose proof (accel_row_map pi (weight pi) l2) as H2.
  unfold accel_row in H1, H2. rewrite H1.
  change (vsum (?x :: ?l)) with (vadd x (vsum l)).
  rewrite H2.
  assert (Hz : vmuls (vmuls (rel pi b) 0) (mass b) = vzero).
  { unfold vmuls, vzero; cbn; f_equal; ring. }
  rewrite Hz, vadd_zero_l. f_equal; f_equal; apply list_fmap_ext; intros _ x _;
    apply weighted_pull.
Qed.

Lemma accel_r_row (bodies : list Body) (pi : vec) :
  (fun pj => vsub pj pi) <$> (position <$> bodies) = rel pi <$> bodies.
Proof. by rewrite <- list_fmap_compose. Qed.

Lemma accel_weights_row (bodies : list Body) (pi : vec) :
  (fun x => Rpower x (- (15 / 10))) <$>
    ((fun d => vdot d d + SOFTENING ^ 2) <$> (rel pi <$> bodies))
  = weight pi <$> bodies.
Proof. by rewrite <- !list_fmap_compose. Qed.

Lemma accel_lookup (bodies : list Body) (i : nat) :
  accel (position <$> bodies) (mass <$> bodies) !! i
  = (fun bi => smulv G (accel_row (mass <$> bodies) (rel (position bi) <$> bodies)
                          (<[i := 0]> (weight (position bi) <$> bodies))))
    <$> bodies !! i.
Proof.
  unfold accel, accel_with.
  destruct bodies as [|b0 l]; [done|].
  set (bodies := b0 :: l).
  change (match position <$> bodies with [] => [] | _ => ?x end) with x.
  cbv zeta.
  rewrite lookup_zip_with.
  unfold accel_inv_dist3, fill_diagonal, accel_dist2, accel_r.
  rewrite list_lookup_imap, !list_lookup_fmap.
  destruct (bodies !! i) as [bi|]; [|done]. cbn.
  by rewrite accel_r_row, accel_weights_row.
Qed.

Lemma accel_gravity (bodies : list Body) :
  accel (position <$> bodies) (mass <$> bodies) = imap (gravity bodies) bodies.
Proof.
  apply list_eq; intros i.
  rewrite accel_lookup, list_lookup_imap.
  destruct (bodies !! i) as [bi|] eqn:E; [|done]. cbn.
  f_equal. unfold gravity, others. f_equal.
  pose proof (take_drop_middle bodies i bi E) as Hsplit.
  assert (Hlen : length (take i bodies) = i).
  { apply lookup_lt_Some in E. rewrite length_take. lia. }
  set (l1 := take i bodies) in *. set (l2 := drop (S i) bodies) in *.
  clearbody l1 l2. subst bodies i.
  apply accel_row_split.
Qed.

(** C1.  For every body set, [accel] returns at each index [i] the
    acceleration [G · Σ_{j≠i} m_j · (p_j − p_i) / (‖p_j − p_i‖² + ε²)^1.5]
    with [G = 9.8] and [ε = 1e-3]: the sum runs over the other bodies only.
    For no body the result is empty, for one body it is the zero vector. *)
Theorem accel_formula (bodies : list Body) :
  accel (position <$> bodies) (mass <$> bodies) = imap (gravity bodies) bodies
  /\ G = 98 / 10 /\ SOFTENING = 1 / 1000
  /\ accel [] [] = []
  /\ forall b : Body, accel [position b] [mass b] = [vzero].
Proof.
  split; [apply accel_gravity|].
  do 3 (split; [reflexivity|]).
  intros b. change (accel [position b] [mass b]) with
    (accel (position <$> [b]) (mass <$> [b])).
  rewrite accel_gravity. cbn. unfold gravity, others. cbn.
  unfold smulv, vzero. cbn. do 2 f_equal; ring.
Qed.

(** Two planets 0.05 apart pull each other along the line between them. *)
Lemma accel_two_planets :
  accel (position <$> [planet_a; planet_b]) (mass <$> [planet_a; planet_b])
  = [(G * (5 / 100 / Rpower (25 / 10000 + 1 / 1000000) (15 / 10)), 0);
     (G * (- (5 / 100) / Rpower (25 / 10000 + 1 / 1000000) (15 / 10)), 0)].
Proof.
  rewrite accel_gravity. cbn.
  unfold gravity, others, pull, smulv, vdivs, vsub, vadd, vdot, vzero,
    SOFTENING. cbn.
  replace ((5 / 100 - 0) * (5 / 100 - 0) + (0 - 0) * (0 - 0)
           + 1 / 1000 * (1 / 1000 * 1))
    with (25 / 10000 + 1 / 1000000) by lra.
  replace ((0 - 5 / 100) * (0 - 5 / 100) + (0 - 0) * (0 - 0)
           + 1 / 1000 * (1 / 1000 * 1))
    with (25 / 10000 + 1 / 1000000) by lra.
  repeat f_equal; unfold Rdiv; ring.
Qed.

(** The self-term of [accel]: the weight on the diagonal is the number 0. *)
Lemma accel_inv_dist3_diagonal (dist2 : list (list R)) (i : nat) (row : list R) :
  accel_inv_dist3 dist2 !! i = Some row -> (i < length row)%nat ->
  row !! i = Some 0.
Proof.
  unfold accel_inv_dist3, fill_diagonal.
  rewrite list_lookup_imap, list_lookup_fmap.
  destruct (dist2 !! i) as [d|]; [|done]. cbn.
  intros [= <-] Hlen. rewrite length_insert in Hlen.
  by apply list_lookup_insert_eq.
Qed.

Lemma pull_self (b : Body) : pull (position b) b = vzero.
Proof.
  unfold pull, vdivs, smulv, vsub, vzero. cbn [fst snd].
  f_equal; unfold Rdiv; ring.
Qed.

(** The sum over [j ≠ i] is the sum over all [j]: the body's pull on itself
    is zero. *)
Lemma gravity_all (bodies : list Body) (i : nat) (b : Body) :
  bodies !! i = Some b ->
  gravity bodies i b = smulv G (vsum (pull (position b) <$> bodies)).
Proof.
  intros Hi. unfold gravity, others. f_equal.
  rewrite <- (take_drop_middle bodies i b Hi) at 3.
  rewrite !fmap_app, fmap_cons, !vsum_app.
  change (vsum (?x :: ?l)) with (vadd x (vsum l)).
  by rewrite pull_self, vadd_zero_l.
Qed.


(** ** [velocity_verlet_step] *)

Lemma zip_with_imap {A B C D} (f : B -> C -> D) (g : nat -> A -> B)
    (h : nat -> A -> C) (l : list A) :
  zip_with f (imap g l) (imap h l) = imap (fun i x => f (g i x) (h i x)) l.
Proof.
  apply list_eq; intros i.
  rewrite lookup_zip_with, !list_lookup_imap. by destruct (l !! i).
Qed.

Lemma zip_with_self_imap {A C D} (f : A -> C -> D) (h : nat -> A -> C)
    (l : list A) :
  zip_with f l (imap h l) = imap (fun i x => f x (h i x)) l.
Proof.
  apply list_eq; intros i.
  rewrite lookup_zip_with, !list_lookup_imap. by destruct (l !! i).
Qed.

Lemma fmap_as_imap {A B} (g : A -> B) (l : list A) :
  g <$> l = imap (fun _ => g) l.
Proof. symmetry. apply (imap_const g l). Qed.

Lemma position_moved bodies dt :
  position <$> moved bodies dt = imap (stepped_position bodies dt) bodies.
Proof. unfold moved. by rewrite fmap_imap. Qed.

Lemma mass_moved bodies dt : mass <$> moved bodies dt = mass <$> bodies.
Proof. unfold moved. rewrite fmap_imap. by rewrite (fmap_as_imap mass). Qed.

Lemma gravity_moved bodies dt :
  imap (gravity (moved bodies dt)) (moved bodies dt)
  = imap (fun i b => gravity (moved bodies dt) i
            (set_state b (stepped_position bodies dt i b) (velocity b))) bodies.
Proof.
  apply list_eq; intros i. unfold moved at 2.
  rewrite !list_lookup_imap. by destruct (bodies !! i).
Qed.

Lemma velocity_verlet_step_verlet bodies dt :
  velocity_verlet_step bodies dt = verlet bodies dt.
Proof.
  unfold velocity_verlet_step, verlet.
  destruct bodies as [|b0 l]; [done|].
  set (bodies := b0 :: l). cbv zeta.
  rewrite accel_gravity.
  rewrite (fmap_as_imap velocity), zip_with_imap.
  rewrite (fmap_as_imap position), zip_with_imap.
  change (imap (fun i x => vadd (position x) (vmuls (vadd (velocity x)
            (vmuls (smulv (1 / 2) (gravity bodies i x)) dt)) dt)) bodies)
    with (imap (stepped_position bodies dt) bodies).
  rewrite <- position_moved, <- (mass_moved bodies dt), accel_gravity.
  rewrite gravity_moved, zip_with_imap.
  rewrite position_moved.
  rewrite zip_with_imap, zip_with_self_imap.
  reflexivity.
Qed.

Lemma verlet_lookup (bodies : list Body) (dt : R) (i : nat) :
  verlet bodies dt !! i
  = (fun b => set_state b (stepped_position bodies dt i b)
                          (stepped_velocity bodies dt i b)) <$> bodies !! i.
Proof. unfold verlet. by rewrite list_lookup_imap. Qed.

(** Gravity reads the positions and the masses of the bodies, nothing else. *)
Lemma pull_same_place (p : vec) (l l' : list Body) :
  Forall2 same_place l l' -> pull p <$> l = pull p <$> l'.
Proof.
  induction 1 as [|b b' l l' [Hp Hm] _ IH]; [done|].
  cbn [fmap list_fmap]. f_equal; [|exact IH].
  unfold pull. by rewrite Hp, Hm.
Qed.

Lemma gravity_same_place (l l' : list Body) (i : nat) (b b' : Body) :
  Forall2 same_place l l' -> position b = position b' ->
  gravity l i b = gravity l' i b'.
Proof.
  intros Hl Hb. unfold gravity, others. rewrite Hb, !fmap_app.
  rewrite (pull_same_place _ (take i l) (take i l')) by by apply Forall2_take.
  by rewrite (pull_same_place _ (drop (S i) l) (drop (S i) l'))
    by by apply Forall2_drop.
Qed.

Lemma same_place_imap (f g : nat -> Body -> Body) (l : list Body) :
  (forall i b, l !! i = Some b -> same_place (f i b) (g i b)) ->
  Forall2 same_place (imap f l) (imap g l).
Proof.
  intros H. apply Forall2_same_length_lookup. split.
  - by rewrite !length_imap.
  - intros i x y. rewrite !list_lookup_imap.
    destruct (l !! i) as [b|] eqn:Hb; [|done]. cbn.
    intros [= <-] [= <-]. by apply H.
Qed.

Lemma verlet_same_place_moved (bodies : list Body) (dt : R) :
  Forall2 same_place (verlet bodies dt) (moved bodies dt).
Proof. apply same_place_imap. intros i b _. by split. Qed.

(** C2.  One call of [velocity_verlet_step] leaves the list as long as it
    was and gives the body at every index [i] the position [p + v_half·dt]
    and the velocity [v_half + 0.5·a(t+dt)·dt], where [v_half = v +
    0.5·a(t)·dt], [a(t)] is the gravity among the bodies as they were before
    the call, and [a(t+dt)] the gravity among the bodies as the call leaves
    them, every one at its new position; its identity, mass, radius, colour
    and kind stay as they were.  On the empty list it does nothing. *)
Theorem verlet_five_stages (bodies : list Body) (dt : R) :
  velocity_verlet_step [] dt = []
  /\ length (velocity_verlet_step bodies dt) = length bodies
  /\ forall (i : nat) (b : Body), bodies !! i = Some b ->
     exists b' : Body,
       velocity_verlet_step bodies dt !! i = Some b'
       /\ (let a := gravity bodies i b in
           let v_half := vadd (velocity b) (vmuls (smulv (1 / 2) a) dt) in
           let a_new := gravity (velocity_verlet_step bodies dt) i b' in
           position b' = vadd (position b) (vmuls v_half dt)
           /\ velocity b' = vadd v_half (vmuls (smulv (1 / 2) a_new) dt))
       /\ oid b' = oid b /\ mass b' = mass b /\ radius b' = radius b
       /\ color b' = color b /\ body_type b' = body_type b.
Proof.
  split; [reflexivity|]. rewrite (velocity_verlet_step_verlet bodies dt).
  split; [apply length_imap|].
  intros i b Hi. eexists. rewrite verlet_lookup, Hi.
  split; [reflexivity|]. split; [|done].
  cbn [set_state position velocity]. split; [reflexivity|].
  unfold stepped_velocity. do 3 f_equal.
  symmetry. apply gravity_same_place; [apply verlet_same_place_moved | done].
Qed.

Lemma verlet_keeps (bodies : list Body) (dt : R) :
  oid <$> verlet bodies dt = oid <$> bodies
  /\ mass <$> verlet bodies dt = mass <$> bodies
  /\ radius <$> verlet bodies dt = radius <$> bodies
  /\ color <$> verlet bodies dt = color <$> bodies
  /\ body_type <$> verlet bodies dt = body_type <$> bodies.
Proof.
  unfold verlet. rewrite !fmap_imap.
  rewrite (fmap_as_imap oid), (fmap_as_imap mass), (fmap_as_imap radius),
    (fmap_as_imap color), (fmap_as_imap body_type).
  repeat split; by apply imap_ext.
Qed.

Lemma verlet_live (bodies : list Body) (dt : R) :
  Forall live bodies -> Forall live (verlet bodies dt).
Proof.
  intros Hall. apply Forall_lookup. intros i b Hb.
  rewrite verlet_lookup in Hb.
  destruct (bodies !! i) as [b0|] eqn:Hi; [|done].
  injection Hb as <-.
  by apply (proj1 (Forall_lookup live bodies) Hall i b0).
Qed.

(** A body listed twice is one object written twice: both writes agree, so
    reading the update as a new list of values loses nothing. *)
Lemma verlet_same_object (bodies : list Body) (dt : R) (i k : nat) (b : Body) :
  bodies !! i = Some b -> bodies !! k = Some b ->
  verlet bodies dt !! i = verlet bodies dt !! k.
Proof.
  intros Hi Hk. rewrite !verlet_lookup, Hi, Hk. cbn. f_equal.
  assert (Hh : half_velocity bodies dt i b = half_velocity bodies dt k b).
  { unfold half_velocity. by rewrite (gravity_all bodies i b), (gravity_all bodies k b). }
  assert (Hp : stepped_position bodies dt i b = stepped_position bodies dt k b).
  { unfold stepped_position. by rewrite Hh. }
  unfold stepped_velocity. rewrite Hh, Hp.
  set (b' := set_state b (stepped_position bodies dt k b) (velocity b)).
  assert (Hmi : moved bodies dt !! i = Some b').
  { unfold moved. rewrite list_lookup_imap, Hi. cbn. by rewrite Hp. }
  assert (Hmk : moved bodies dt !! k = Some b').
  { unfold moved. by rewrite list_lookup_imap, Hk. }
  by rewrite (gravity_all _ i b' Hmi), (gravity_all _ k b' Hmk).
Qed.


(** ** [merge_bodies] *)

Lemma merge_bodies_fields {Src} (b1 b2 : Body) (w : World Src) :
  let M := (merge_bodies b1 b2 w).1 in
  oid M = next_oid w
  /\ mass M = mass b1 + mass b2
  /\ position M = vdivs (vadd (vmuls (position b1) (mass b1))
                              (vmuls (position b2) (mass b2)))
                        (mass b1 + mass b2)
  /\ velocity M = vdivs (vadd (vmuls (velocity b1) (mass b1))
                              (vmuls (velocity b2) (mass b2)))
                        (mass b1 + mass b2)
  /\ radius M = sqrt (radius b1 ^ 2 + radius b2 ^ 2).
Proof. cbn. auto. Qed.

Lemma merge_bodies_world {Src} (b1 b2 : Body) (w : World Src) :
  (merge_bodies b1 b2 w).2 = mkWorld (S (next_oid w)) (rng w).
Proof. reflexivity. Qed.

Lemma weighted_average (x y m1 m2 : R) :
  m1 + m2 <> 0 ->
  (x * m1 + y * m2) / (m1 + m2) = m1 / (m1 + m2) * x + m2 / (m1 + m2) * y.
Proof. intros. field. assumption. Qed.

Lemma weighted_total (x y m1 m2 : R) :
  m1 + m2 <> 0 ->
  (m1 + m2) * ((x * m1 + y * m2) / (m1 + m2)) = m1 * x + m2 * y.
Proof. intros. field. assumption. Qed.

(** C3.  For two bodies of positive mass the merged body has the sum of the
    masses, the mass-weighted averages of the positions and of the
    velocities (so momentum and centre of mass are those of the pair), and
    the radius [sqrt(rA² + rB²)]. *)
Theorem merge_conserves {Src} (A B : Body) (w : World Src) :
  0 < mass A -> 0 < mass B ->
  let M := (merge_bodies A B w).1 in
  mass M = mass A + mass B
  /\ position M = vadd (smulv (mass A / (mass A + mass B)) (position A))
                       (smulv (mass B / (mass A + mass B)) (position B))
  /\ velocity M = vadd (smulv (mass A / (mass A + mass B)) (velocity A))
                       (smulv (mass B / (mass A + mass B)) (velocity B))
  /\ smulv (mass M) (velocity M)
     = vadd (smulv (mass A) (velocity A)) (smulv (mass B) (velocity B))
  /\ smulv (mass M) (position M)
     = vadd (smulv (mass A) (position A)) (smulv (mass B) (position B))
  /\ radius M = sqrt (radius A ^ 2 + radius B ^ 2).
Proof.
  intros HA HB M.
  assert (Hm : mass A + mass B <> 0) by lra.
  destruct (merge_bodies_fields A B w) as (_ & Hmass & Hpos & Hvel & Hrad).
  fold M in Hmass, Hpos, Hvel, Hrad.
  rewrite Hmass, Hpos, Hvel, Hrad.
  unfold vdivs, vadd, vmuls, smulv; cbn [fst snd].
  repeat split; try (f_equal; auto using weighted_average, weighted_total).
Qed.

Lemma merge_conserves_witness :
  let M := (merge_bodies planet_a planet_b sample_world).1 in
  mass M = mass planet_a + mass planet_b
  /\ position M
     = vadd (smulv (mass planet_a / (mass planet_a + mass planet_b))
                   (position planet_a))
            (smulv (mass planet_b / (mass planet_a + mass planet_b))
                   (position planet_b))
  /\ velocity M
     = vadd (smulv (mass planet_a / (mass planet_a + mass planet_b))
                   (velocity planet_a))
            (smulv (mass planet_b / (mass planet_a + mass planet_b))
                   (velocity planet_b))
  /\ smulv (mass M) (velocity M)
     = vadd (smulv (mass planet_a) (velocity planet_a))
            (smulv (mass planet_b) (velocity planet_b))
  /\ smulv (mass M) (position M)
     = vadd (smulv (mass planet_a) (position planet_a))
            (smulv (mass planet_b) (position planet_b))
  /\ radius M = sqrt (radius planet_a ^ 2 + radius planet_b ^ 2).
Proof.
  apply (merge_conserves planet_a planet_b sample_world); cbn; lra.
Defined.

(** C5.  When one of two merged bodies is a black hole, the merged body is a
    black hole whatever the masses, from [merge_bodies] and from the merge
    made by [handle_collisions]. *)
Theorem blackhole_dominates {Src} (A B : Body) (w : World Src) :
  body_type A = "blackhole"%string \/ body_type B = "blackhole"%string ->
  body_type (merge_bodies A B w).1 = "blackhole"%string
  /\ body_type (hc_merged A B w).1 = "blackhole"%string.
Proof.
  intros H.
  assert (Hb : ((body_type A =? "blackhole")%string
                || (body_type B =? "blackhole")%string) = true).
  { apply orb_true_iff. rewrite !String.eqb_eq. exact H. }
  unfold hc_merged, merge_bodies. rewrite Hb. cbn. auto.
Qed.

Lemma blackhole_dominates_witness :
  body_type (merge_bodies heavy_planet light_hole sample_world).1
  = "blackhole"%string
  /\ body_type (hc_merged heavy_planet light_hole sample_world).1
     = "blackhole"%string.
Proof.
  apply (blackhole_dominates heavy_planet light_hole sample_world).
  right. reflexivity.
Defined.

(** C9.  Merging (A, B) and merging (B, A) give the same mass, position,
    velocity and radius.  With different masses kind and colour agree too;
    with equal masses the colour is that of the first-listed body, and so is
    the kind unless a black hole is involved. *)
Theorem merge_commutes {Src} (A B : Body) (w w' : World Src) :
  let M := (merge_bodies A B w).1 in
  let M' := (merge_bodies B A w').1 in
  mass M = mass M' /\ position M = position M'
  /\ velocity M = velocity M' /\ radius M = radius M'
  /\ (mass A <> mass B -> body_type M = body_type M' /\ color M = color M')
  /\ (mass A = mass B ->
      color M = color A /\ color M' = color B
      /\ (body_type A <> "blackhole"%string -> body_type B <> "blackhole"%string ->
          body_type M = body_type A /\ body_type M' = body_type B)).
Proof.
  intros M M'.
  destruct (merge_bodies_fields A B w) as (_ & Hmass & Hpos & Hvel & Hrad).
  destruct (merge_bodies_fields B A w') as (_ & Hmass' & Hpos' & Hvel' & Hrad').
  fold M in Hmass, Hpos, Hvel, Hrad. fold M' in Hmass', Hpos', Hvel', Hrad'.
  rewrite Hmass, Hpos, Hvel, Hrad, Hmass', Hpos', Hvel', Hrad'.
  split; [lra|].
  split; [unfold vdivs, vadd, vmuls; cbn [fst snd]; f_equal; f_equal; lra|].
  split; [unfold vdivs, vadd, vmuls; cbn [fst snd]; f_equal; f_equal; lra|].
  split; [f_equal; lra|].
  subst M M'. unfold merge_bodies. cbn.
  rewrite (orb_comm (body_type B =? "blackhole")%string).
  split.
  - intros Hne.
    destruct (Rge_dec (mass A) (mass B)), (Rge_dec (mass B) (mass A));
      try lra; auto.
  - intros Heq.
    destruct (Rge_dec (mass A) (mass B)), (Rge_dec (mass B) (mass A));
      try lra.
    split; [reflexivity|]. split; [reflexivity|].
    intros HA HB.
    apply String.eqb_neq in HA, HB. rewrite HA, HB. cbn. auto.
Qed.

Lemma merge_commutes_witness :
  let M := (merge_bodies planet_a planet_b sample_world).1 in
  let M' := (merge_bodies planet_b planet_a sample_world).1 in
  mass M = mass M' /\ position M = position M'
  /\ velocity M = velocity M' /\ radius M = radius M'
  /\ color M = "cyan"%string /\ color M' = "green"%string
  /\ body_type (merge_bodies heavy_planet planet_b sample_world).1
     = body_type (merge_bodies planet_b heavy_planet sample_world).1
  /\ color (merge_bodies heavy_planet planet_b sample_world).1
     = color (merge_bodies planet_b heavy_planet sample_world).1.
Proof.
  intros M M'.
  destruct (merge_commutes planet_a planet_b sample_world sample_world)
    as (Hm & Hp & Hv & Hr & _ & Htie).
  destruct (merge_commutes heavy_planet planet_b sample_world sample_world)
    as (_ & _ & _ & _ & Hne & _).
  destruct Htie as (Hc & Hc' & _); [reflexivity|].
  destruct Hne as [Ht Hcol]; [cbn; lra|].
  repeat split; assumption.
Defined.

Lemma merge_bodies_live {Src} (b1 b2 : Body) (w : World Src) :
  live b1 -> live b2 -> live (merge_bodies b1 b2 w).1.
Proof.
  intros [Hm1 Hr1] [Hm2 Hr2]. split; cbn.
  - lra.
  - apply sqrt_lt_R0. nra.
Qed.

Lemma hc_merged_live {Src} (b1 b2 : Body) (w : World Src) :
  live b1 -> live b2 -> live (hc_merged b1 b2 w).1.
Proof.
  intros H1 H2. unfold hc_merged.
  destruct ((body_type b1 =? "blackhole")%string
            || (body_type b2 =? "blackhole")%string).
  - by apply (merge_bodies_live b1 b2 w).
  - by apply merge_bodies_live.
Qed.


(** ** [handle_collisions] *)

Ltac sim_unfold :=
  unfold mbind, sim_bind, mret, sim_ret in *; cbn beta zeta iota in *.

Lemma overlapping_at_lookup (bodies : list Body) (i j : nat) (bi bj : Body) :
  bodies !! i = Some bi -> bodies !! j = Some bj ->
  overlapping_at bodies i j <-> overlapping bi bj.
Proof.
  intros Hi Hj. split.
  - intros (bi' & bj' & Hi' & Hj' & Ho). congruence.
  - intros Ho. exists bi, bj. auto.
Qed.

Lemma hc_merge_run {Src} (i j : nat) (bi bj : Body) (st : hc_locals) (w : World Src) :
  hc_merge i j bi bj st w
  = ({| merged_flags := merged_flags st ∪ {[i; j]};
        new_bodies := new_bodies st ++ [(hc_merged bi bj w).1];
        flashes := flashes st ++ [((hc_merged bi bj w).1, final_color bi bj)] |},
     (hc_merged bi bj w).2).
Proof. reflexivity. Qed.

(** The inner loop, started at index [k] with nothing found before [k]:
    it stops at the first partner of [i] and merges, or finds none. *)
Lemma hc_inner_scan {Src} (bodies : list Body) (i : nat) (bi : Body) (n k : nat)
    (st : hc_locals) (w : World Src) :
  bodies !! i = Some bi ->
  (i < k)%nat -> (k + n = length bodies)%nat ->
  (forall j, (i < j < k)%nat -> j ∉ merged_flags st -> ~ overlapping_at bodies i j) ->
  (exists j bj,
      first_partner bodies (merged_flags st) i j /\ bodies !! j = Some bj
      /\ hc_inner bodies i bi (seq k n) st w
         = ((true, (hc_merge i j bi bj st w).1), (hc_merge i j bi bj st w).2))
  \/ (no_partner bodies (merged_flags st) i
      /\ hc_inner bodies i bi (seq k n) st w = ((false, st), w)).
Proof.
  intros Hi. revert k.
  induction n as [|n IH]; intros k Hik Hlen Hbefore.
  - right. split; [|reflexivity].
    intros j Hj. apply Hbefore. lia.
  - cbn [seq hc_inner].
    destruct (decide (k ∈ merged_flags st)) as [Hflag|Hflag].
    + apply IH; [lia | lia |].
      intros j Hj Hnot. destruct (decide (j = k)) as [->|Hne]; [done|].
      apply Hbefore; [lia | done].
    + destruct (lookup_lt_is_Some_2 bodies k) as [bk Hk]; [lia|].
      rewrite Hk.
      destruct (overlapping_dec bi bk) as [Ho|Ho].
      * left. exists k, bk. split; [|split; [done|reflexivity]].
        split; [lia|]. split; [done|]. split; [|done].
        by apply (overlapping_at_lookup bodies i k bi bk).
      * apply IH; [lia | lia |].
        intros j Hj Hnot. destruct (decide (j = k)) as [->|Hne].
        -- by rewrite (overlapping_at_lookup bodies i k bi bk).
        -- apply Hbefore; [lia | done].
Qed.

(** The outer loop from index [i] on produces the events of [pass]. *)
Lemma hc_outer_pass {Src} (bodies : list Body) (n i : nat) (st : hc_locals)
    (w : World Src) :
  (i + n = length bodies)%nat ->
  exists evs,
    pass bodies i (merged_flags st) evs
    /\ new_bodies (hc_outer bodies (length bodies) (seq i n) st w).1
       = new_bodies st ++ (realise bodies evs w).1.1
    /\ flashes (hc_outer bodies (length bodies) (seq i n) st w).1
       = flashes st ++ (realise bodies evs w).1.2
    /\ (hc_outer bodies (length bodies) (seq i n) st w).2
       = (realise bodies evs w).2.
Proof.
  revert i st w.
  induction n as [|n IH]; intros i st w Hlen.
  - exists []. split; [apply pass_end; lia|].
    cbn. by rewrite !app_nil_r.
  - cbn [seq hc_outer].
    destruct (decide (i ∈ merged_flags st)) as [Hflag|Hflag].
    + destruct (IH (S i) st w) as (evs & Hpass & Hres); [lia|].
      exists evs. split; [|exact Hres].
      apply pass_consumed; [lia | done | done].
    + destruct (lookup_lt_is_Some_2 bodies i) as [bi Hi]; [lia|].
      rewrite Hi. sim_unfold.
      replace (length bodies - (i + 1))%nat with n by lia.
      destruct (hc_inner_scan bodies i bi n (i + 1) st w Hi)
        as [(j & bj & Hfirst & Hj & Hrun)|[Hnone Hrun]];
        [lia | lia | intros j Hj; lia | |]; rewrite Hrun; cbn [fst snd].
      * rewrite hc_merge_run. cbn [fst snd].
        set (st' := {| merged_flags := _ |}).
        destruct (IH (S i) st' (hc_merged bi bj w).2)
          as (evs & Hpass & Hnew & Hfl & Hw); [lia|].
        exists (Merged i j :: evs). split.
        { apply pass_merge; [lia | done | done | exact Hpass]. }
        cbn [realise]. rewrite Hi, Hj. sim_unfold. cbn [fst snd].
        rewrite Hnew, Hfl, Hw. subst st'. cbn [new_bodies flashes].
        by rewrite <- !app_assoc.
      * set (st' := {| merged_flags := _ |}).
        destruct (IH (S i) st' w) as (evs & Hpass & Hnew & Hfl & Hw); [lia|].
        exists (Carried i :: evs). split.
        { apply pass_carry; [lia | done | done | exact Hpass]. }
        cbn [realise]. rewrite Hi. sim_unfold. cbn [fst snd].
        rewrite Hnew, Hfl, Hw. subst st'. cbn [new_bodies flashes].
        by rewrite <- !app_assoc.
Qed.

Lemma first_partner_unique (bodies : list Body) (consumed : gset nat) (i j j' : nat) :
  first_partner bodies consumed i j -> first_partner bodies consumed i j' -> j = j'.
Proof.
  intros (Hj & Hc & Ho & Hmin) (Hj' & Hc' & Ho' & Hmin').
  destruct (Nat.lt_trichotomy j j') as [Hlt|[Heq|Hgt]]; [|done|].
  - exfalso. apply (Hmin' j); [lia | done | done].
  - exfalso. apply (Hmin j'); [lia | done | done].
Qed.

(** A pass is determined by the bodies: the wording leaves no choice. *)
Lemma pass_functional (bodies : list Body) (i : nat) (consumed : gset nat)
    (evs evs' : list event) :
  pass bodies i consumed evs -> pass bodies i consumed evs' -> evs = evs'.
Proof.
  intros H. revert evs'.
  induction H as [i c Hge | i c evs Hlt Hin _ IH | i j c evs Hlt Hnin Hfp _ IH
                  | i c evs Hlt Hnin Hno _ IH]; intros evs' H'.
  - inversion H'; subst; [done | lia | lia | lia].
  - inversion H'; subst; [lia | by apply IH | done | done].
  - inversion H' as [| | ? j' ? evs0 ? ? Hfp' Hp' | ? ? evs0 ? ? Hno' Hp']; subst;
      [lia | done | |].
    + assert (j = j') as <- by eauto using first_partner_unique.
      f_equal. by apply IH.
    + destruct Hfp as (Hj & Hc & Ho & _). by destruct (Hno' j).
  - inversion H' as [| | ? j' ? evs0 ? ? Hfp' Hp' | ? ? evs0 ? ? Hno' Hp']; subst;
      [lia | done | |].
    + destruct Hfp' as (Hj & Hc & Ho & _). by destruct (Hno j').
    + f_equal. by apply IH.
Qed.

(** The events come in ascending order of the index they are about. *)
Lemma pass_ascending (bodies : list Body) (i : nat) (consumed : gset nat)
    (evs : list event) :
  pass bodies i consumed evs ->
  Forall (fun e => (i <= event_index e)%nat) evs
  /\ StronglySorted lt (event_index <$> evs).
Proof.
  induction 1 as [i c Hge | i c evs Hlt Hin _ [IHa IHs]
                  | i j c evs Hlt Hnin Hfp _ [IHa IHs]
                  | i c evs Hlt Hnin Hno _ [IHa IHs]].
  - split; constructor.
  - split; [|done]. eapply Forall_impl; [exact IHa|]. cbn. intros; lia.
  - split.
    + constructor; [cbn; lia|].
      eapply Forall_impl; [exact IHa|]. cbn. intros; lia.
    + cbn. constructor; [done|].
      apply Forall_fmap. eapply Forall_impl; [exact IHa|]. cbn. intros; lia.
  - split.
    + constructor; [cbn; lia|].
      eapply Forall_impl; [exact IHa|]. cbn. intros; lia.
    + cbn. constructor; [done|].
      apply Forall_fmap. eapply Forall_impl; [exact IHa|]. cbn. intros; lia.
Qed.

Lemma handle_collisions_realise {Src} (bodies : list Body) (w : World Src) :
  exists evs : list event,
    pass bodies 0 ∅ evs /\ handle_collisions bodies w = realise bodies evs w.
Proof.
  unfold handle_collisions.
  destruct (length bodies <=? 1)%nat eqn:HN.
  - apply Nat.leb_le in HN.
    destruct bodies as [|b [|b' l]]; cbn in HN; [| |lia].
    + exists []. split; [apply pass_end; cbn; lia | reflexivity].
    + exists [Carried 0%nat]. split; [|reflexivity].
      apply pass_carry; [cbn; lia | set_solver | | apply pass_end; cbn; lia].
      intros j Hj. cbn in Hj. lia.
  - destruct (hc_outer_pass bodies (length bodies) 0 (mkLocals ∅ [] []) w)
      as (evs & Hpass & Hnew & Hfl & Hw); [lia|].
    exists evs. split; [exact Hpass|].
    sim_unfold. cbn [new_bodies flashes app] in *.
    rewrite Hnew, Hfl, Hw.
    by destruct (realise bodies evs w) as [[? ?] ?].
Qed.

Lemma handle_collisions_of_pass {Src} (bodies : list Body) (w : World Src)
    (evs : list event) :
  pass bodies 0 ∅ evs -> handle_collisions bodies w = realise bodies evs w.
Proof.
  intros Hpass.
  destruct (handle_collisions_realise bodies w) as (evs' & Hpass' & ->).
  by rewrite (pass_functional bodies 0 ∅ evs evs').
Qed.

Lemma pass_merged (bodies : list Body) (i : nat) (consumed : gset nat)
    (evs : list event) (a b : nat) :
  pass bodies i consumed evs -> Merged a b ∈ evs ->
  (a < b < length bodies)%nat /\ overlapping_at bodies a b.
Proof.
  induction 1 as [i c Hge | i c evs Hlt Hin _ IH | i j c evs Hlt Hnin Hfp _ IH
                  | i c evs Hlt Hnin Hno _ IH]; intros Hel.
  - by apply elem_of_nil in Hel.
  - by apply IH.
  - apply elem_of_cons in Hel as [Heq|Hel]; [|by apply IH].
    injection Heq as -> ->. destruct Hfp as (? & ? & ? & ?). done.
  - apply elem_of_cons in Hel as [Heq|Hel]; [done | by apply IH].
Qed.


Lemma realise_bodies {Src} (bodies : list Body) (evs : list event)
    (w : World Src) (m : Body) :
  m ∈ (realise bodies evs w).1.1 ->
  (exists i, Carried i ∈ evs /\ bodies !! i = Some m)
  \/ (exists i j bi bj (w' : World Src),
        Merged i j ∈ evs /\ bodies !! i = Some bi /\ bodies !! j = Some bj
        /\ m = (hc_merged bi bj w').1).
Proof.
  revert w. induction evs as [|e evs IH]; intros w Hel.
  - by apply elem_of_nil in Hel.
  - assert (Hrest : forall w0 : World Src, m ∈ (realise bodies evs w0).1.1 ->
              (exists i, Carried i ∈ e :: evs /\ bodies !! i = Some m)
              \/ (exists i j bi bj (w' : World Src),
                    Merged i j ∈ e :: evs /\ bodies !! i = Some bi
                    /\ bodies !! j = Some bj /\ m = (hc_merged bi bj w').1)).
    { intros w0 H0. destruct (IH w0 H0) as [(i & ? & ?)|(i & j & bi & bj & w' & ? & ?)].
      - left. exists i. split; [by apply elem_of_cons; right | done].
      - right. exists i, j, bi, bj, w'.
        split; [by apply elem_of_cons; right | done]. }
    destruct e as [i|i j]; cbn [realise] in Hel.
    + destruct (bodies !! i) as [bi|] eqn:Hi; [|by eapply Hrest].
      sim_unfold. cbn [fst snd] in Hel.
      apply elem_of_cons in Hel as [->|Hel]; [|by eapply Hrest].
      left. exists i. split; [apply list_elem_of_here | done].
    + destruct (bodies !! i) as [bi|] eqn:Hi; [|by eapply Hrest].
      destruct (bodies !! j) as [bj|] eqn:Hj; [|by eapply Hrest].
      sim_unfold. cbn [fst snd] in Hel.
      apply elem_of_cons in Hel as [->|Hel]; [|by eapply Hrest].
      right. exists i, j, bi, bj, w. split; [apply list_elem_of_here | done].
Qed.

Lemma filter_unconsumed_ext (l : list nat) (c c' : gset nat) :
  (forall k, k ∈ l -> k ∈ c <-> k ∈ c') ->
  filter (fun k => k ∉ c) l = filter (fun k => k ∉ c') l.
Proof.
  induction l as [|x l IH]; intros Hext; [done|].
  assert (Hl : filter (fun k => k ∉ c) l = filter (fun k => k ∉ c') l).
  { apply IH. intros k Hk. apply Hext. by apply elem_of_cons; right. }
  pose proof (Hext x (list_elem_of_here x l)) as Hx.
  destruct (decide (x ∈ c)) as [Hc|Hc].
  - rewrite !filter_cons_False by (intros ?; tauto). done.
  - rewrite !filter_cons_True by tauto. by rewrite Hl.
Qed.

Lemma filter_unconsumed_none (l : list nat) (c : gset nat) :
  c = ∅ -> filter (fun k => k ∉ c) l = l.
Proof.
  intros ->. induction l as [|x l IH]; [done|].
  rewrite filter_cons_True by apply not_elem_of_empty. by rewrite IH.
Qed.

Lemma filter_consume (l : list nat) (c : gset nat) (i j : nat) :
  NoDup l -> j ∈ l -> j ∉ c -> i ∉ l ->
  filter (fun k => k ∉ c) l ≡ₚ j :: filter (fun k => k ∉ c ∪ {[i; j]}) l.
Proof.
  induction l as [|x l IH]; intros Hnd Hj Hjc Hi.
  - by apply elem_of_nil in Hj.
  - apply NoDup_cons in Hnd as [Hx Hnd].
    apply not_elem_of_cons in Hi as [Hix Hi].
    destruct (decide (x = j)) as [->|Hne].
    + assert (Hin : ~ (j ∉ c ∪ {[i; j]})).
      { intros Hnot. apply Hnot. apply elem_of_union. right.
        apply elem_of_union. right. by apply elem_of_singleton. }
      rewrite filter_cons_True by done.
      rewrite filter_cons_False by exact Hin.
      apply Permutation_skip.
      rewrite (filter_unconsumed_ext l c (c ∪ {[i; j]})); [done|].
      intros k Hk.
      assert (k <> i) by (intros ->; done).
      assert (k <> j) by (intros ->; done).
      rewrite elem_of_union, elem_of_union, !elem_of_singleton.
      intuition congruence.
    + apply elem_of_cons in Hj as [Hj'|Hj]; [congruence|].
      assert (Hiff : x ∈ c <-> x ∈ c ∪ {[i; j]}).
      { rewrite elem_of_union, elem_of_union, !elem_of_singleton.
        intuition congruence. }
      destruct (decide (x ∈ c)) as [Hxc|Hxc].
      * rewrite !filter_cons_False by tauto. by apply IH.
      * rewrite !filter_cons_True by tauto.
        rewrite (IH Hnd Hj Hjc Hi). apply Permutation_swap.
Qed.

(** Every index from [i] on that was not consumed before is used up by
    exactly one event: no body is merged twice, or merged and carried. *)
Lemma pass_partitions (bodies : list Body) (i : nat) (consumed : gset nat)
    (evs : list event) :
  pass bodies i consumed evs ->
  concat (event_indices <$> evs)
  ≡ₚ filter (fun k => k ∉ consumed) (seq i (length bodies - i)).
Proof.
  induction 1 as [i c Hge | i c evs Hlt Hin _ IH | i j c evs Hlt Hnin Hfp _ IH
                  | i c evs Hlt Hnin Hno _ IH].
  - by replace (length bodies - i)%nat with 0%nat by lia.
  - replace (length bodies - i)%nat with (S (length bodies - S i)) by lia.
    cbn [seq]. by rewrite filter_cons_False by (by intros ?).
  - replace (length bodies - i)%nat with (S (length bodies - S i)) by lia.
    cbn [seq fmap list_fmap concat event_indices app].
    rewrite filter_cons_True by done.
    apply Permutation_skip.
    destruct Hfp as (Hj & Hjc & _).
    rewrite (filter_consume _ c i j); [by rewrite IH | apply NoDup_seq | | done |].
    + apply elem_of_seq. lia.
    + rewrite elem_of_seq. lia.
  - replace (length bodies - i)%nat with (S (length bodies - S i)) by lia.
    cbn [seq fmap list_fmap concat event_indices app].
    rewrite filter_cons_True by done.
    by apply Permutation_skip.
Qed.

Lemma hc_merged_merger {Src} (bi bj : Body) (w : World Src) :
  merger_of bi bj (hc_merged bi bj w).1.
Proof.
  unfold merger_of, hc_merged, merge_bodies, heavier.
  destruct (String.eqb_spec (body_type bi) "blackhole") as [Hi|Hi];
    destruct (String.eqb_spec (body_type bj) "blackhole") as [Hj|Hj];
    cbn; destruct (Rge_dec (mass bi) (mass bj));
    repeat split; try done; try tauto; intros [?|?]; done.
Qed.

Lemma final_color_heavier (bi bj : Body) :
  final_color bi bj = color (heavier bi bj).
Proof. unfold final_color, heavier. by destruct (Rge_dec _ _). Qed.

(** The events of a pass, realised by the code, are an [outcome]. *)
Lemma pass_outcome {Src} (bodies : list Body) (i : nat) (consumed : gset nat)
    (evs : list event) (w : World Src) :
  pass bodies i consumed evs ->
  outcome bodies evs (realise bodies evs w).1.1 (realise bodies evs w).1.2.
Proof.
  intros Hpass. revert w.
  induction Hpass as [i c Hge | i c evs Hlt Hin _ IH | i j c evs Hlt Hnin Hfp _ IH
                     | i c evs Hlt Hnin Hno _ IH]; intros w.
  - constructor.
  - apply IH.
  - destruct Hfp as (_ & _ & (bi & bj & Hi & Hj & _) & _).
    cbn [realise]. rewrite Hi, Hj. sim_unfold. cbn [fst snd].
    rewrite final_color_heavier.
    apply (outcome_merged bodies i j bi bj); [done | done | | apply IH].
    apply hc_merged_merger.
  - destruct (lookup_lt_is_Some_2 bodies i Hlt) as [bi Hi].
    cbn [realise]. rewrite Hi. sim_unfold. cbn [fst snd].
    by apply outcome_carried.
Qed.

(** C4.  [handle_collisions] returns the bodies and hints of the one pass
    the design document describes: indices are visited in ascending order, a
    consumed index is skipped, an index with a first unconsumed overlapping
    partner after it is merged with that partner and both are consumed, any
    other index is carried over as the body itself.  The list returned
    holds, in ascending order of the index visited, the carried body itself
    or the merger of the pair, whose mass, position, velocity, radius, kind
    and colour are those [merger_of] spells out; the hints name every
    merger with the colour of the heavier body; and every index of the
    input is used by exactly one event. *)
Theorem collisions_pair_greedily {Src} (bodies : list Body) (w : World Src) :
  exists evs : list event,
    pass bodies 0 ∅ evs
    /\ outcome bodies evs (handle_collisions bodies w).1.1
               (handle_collisions bodies w).1.2
    /\ StronglySorted lt (event_index <$> evs)
    /\ concat (event_indices <$> evs) ≡ₚ seq 0 (length bodies).
Proof.
  destruct (handle_collisions_realise bodies w) as (evs & Hpass & Hrun).
  exists evs. split; [done|].
  split; [rewrite Hrun; by apply (pass_outcome bodies 0 ∅)|].
  split; [by destruct (pass_ascending bodies 0 ∅ evs Hpass)|].
  rewrite (pass_partitions bodies 0 ∅ evs Hpass), Nat.sub_0_r.
  by rewrite (filter_unconsumed_none _ ∅ eq_refl).
Qed.

(** A colliding pair alone in the set is merged into one body. *)
Lemma handle_collisions_pair {Src} (b1 b2 : Body) (w : World Src) :
  overlapping b1 b2 ->
  handle_collisions [b1; b2] w
  = (([(hc_merged b1 b2 w).1], [((hc_merged b1 b2 w).1, final_color b1 b2)]),
     (hc_merged b1 b2 w).2).
Proof.
  intros Ho.
  rewrite (handle_collisions_of_pass [b1; b2] w [Merged 0 1]); [reflexivity|].
  apply pass_merge; [cbn; lia | set_solver | |].
  - split; [cbn; lia|]. split; [set_solver|]. split.
    + exists b1, b2. done.
    + intros k Hk. lia.
  - apply pass_consumed; [cbn; lia | set_solver |].
    apply pass_end. cbn. lia.
Qed.







Lemma handle_collisions_live {Src} (bodies : list Body) (w : World Src) :
  Forall live bodies -> Forall live (handle_collisions bodies w).1.1.
Proof.
  intros Hall.
  destruct (handle_collisions_realise bodies w) as (evs & _ & ->).
  apply Forall_forall. intros m Hm.
  pose proof (proj1 (Forall_lookup live bodies) Hall) as Hlook.
  apply realise_bodies in Hm
    as [(i & _ & Hi)|(i & j & bi & bj & w' & _ & Hi & Hj & ->)].
  - by apply (Hlook i).
  - apply hc_merged_live; [by apply (Hlook i) | by apply (Hlook j)].
Qed.

(** The worked example of the design document: two planets in contact *)
Lemma overlapping_planets : overlapping planet_a planet_b.
Proof.
  unfold overlapping, vnorm, vdot, vsub. cbn.
  replace ((0 - 5 / 100) * (0 - 5 / 100) + (0 - 0) * (0 - 0))
    with (Rsqr (5 / 100)) by (unfold Rsqr; lra).
  rewrite sqrt_Rsqr by lra. lra.
Qed.

Lemma two_planets_merge :
  exists m : Body,
    (handle_collisions [planet_a; planet_b] sample_world).1
    = ([m], [(m, "cyan"%string)])
    /\ mass m = 2 /\ position m = (25 / 1000, 0) /\ velocity m = (0, 0)
    /\ radius m = sqrt ((5 / 100) ^ 2 + (5 / 100) ^ 2)
    /\ body_type m = "planet"%string /\ color m = "cyan"%string.
Proof.
  exists (hc_merged planet_a planet_b sample_world).1.
  rewrite handle_collisions_pair by apply overlapping_planets.
  assert (Hf : final_color planet_a planet_b = "cyan"%string).
  { unfold final_color. cbn. destruct (Rge_dec 1 1); [done | lra]. }
  rewrite Hf. cbn [fst snd]. split; [reflexivity|].
  unfold hc_merged, merge_bodies. cbn.
  destruct (Rge_dec 1 1); [|lra].
  repeat split; try reflexivity; try lra.
  - unfold vdivs, vadd, vmuls. cbn. f_equal; lra.
  - unfold vdivs, vadd, vmuls. cbn. f_equal; lra.
Qed.


(** ** [trigger_supernova] *)

Lemma list_remove_spec (bodies : list Body) (star : Body) :
  (list_remove bodies star = None /\ Forall (fun b => oid b <> oid star) bodies)
  \/ (exists l1 s l2, bodies = l1 ++ s :: l2 /\ oid s = oid star
        /\ Forall (fun b => oid b <> oid star) l1
        /\ list_remove bodies star = Some (l1 ++ l2)).
Proof.
  induction bodies as [|b bs IH]; cbn.
  - left. split; [done | constructor].
  - destruct (Nat.eqb_spec (oid b) (oid star)) as [Heq|Hne].
    + right. exists [], b, bs. split; [done|]. split; [done|].
      split; [constructor | done].
    + destruct IH as [[Hnone Hall]|(l1 & s & l2 & -> & Hs & Hl1 & Hsome)].
      * left. rewrite Hnone. split; [done | by constructor].
      * right. exists (b :: l1), s, l2. rewrite Hsome.
        split; [done|]. split; [done|]. split; [by constructor | done].
Qed.

Lemma list_remove_absent (bodies : list Body) (star : Body) :
  Forall (fun b => oid b <> oid star) bodies -> list_remove bodies star = None.
Proof.
  induction 1 as [|b bs Hb _ IH]; cbn; [done|].
  destruct (Nat.eqb_spec (oid b) (oid star)); [done|]. by rewrite IH.
Qed.

(** With one entry per object, the star is gone after one removal: a second
    removal finds nothing. *)
Lemma list_remove_twice (bodies after : list Body) (star : Body) :
  NoDup (oid <$> bodies) -> list_remove bodies star = Some after ->
  list_remove after star = None.
Proof.
  intros Hnd Hrm. apply list_remove_absent.
  destruct (list_remove_spec bodies star)
    as [[Hnone _]|(l1 & s & l2 & -> & Hs & Hl1 & Hsome)]; [congruence|].
  assert (after = l1 ++ l2) as -> by congruence.
  apply Forall_app. split; [done|].
  rewrite fmap_app, fmap_cons in Hnd.
  apply NoDup_app in Hnd as (_ & _ & Hnd).
  apply NoDup_cons in Hnd as [Hnotin _].
  apply Forall_forall. intros b Hb Heq. apply Hnotin.
  rewrite Hs, <- Heq. by apply list_elem_of_fmap_2.
Qed.

Section supernova.
Context {Src : Type} `{RandomSource Src}.

Lemma trigger_supernova_below (bodies : list Body) (star : Body) (w : World Src) :
  mass star < MASS_THRESHOLD ->
  trigger_supernova bodies star w = ((bodies, []), w).
Proof.
  intros Hlt. unfold trigger_supernova.
  by destruct (Rlt_dec (mass star) MASS_THRESHOLD).
Qed.

Lemma uniform2_range (lo hi : R) (w : World Src) :
  lo < hi ->
  lo <= (uniform2 lo hi w).1.1 < hi /\ lo <= (uniform2 lo hi w).1.2 < hi.
Proof.
  intros Hlt. unfold uniform2, draw. sim_unfold. cbn [fst snd].
  split; by apply uniform_range.
Qed.

Lemma make_fragment_ok (star : Body) (w : World Src) :
  is_fragment_of star (make_fragment (position star) (velocity star) w).1.
Proof.
  unfold make_fragment, Body_init, draw. sim_unfold. cbn [fst snd].
  set (w1 := mkWorld _ _).
  set (w2 := (uniform2 (- 2) 2 w1).2).
  unfold is_fragment_of. cbn [mass velocity position radius color body_type].
  split; [apply uniform_range; lra|].
  split.
  { eexists. split; [reflexivity|]. apply uniform2_range. lra. }
  split.
  { eexists. split; [reflexivity|]. apply uniform2_range. lra. }
  split; [reflexivity|].
  split; [apply choice_elem; done | reflexivity].
Qed.

Lemma make_fragments_ok (star : Body) (n : nat) (fragments : list Body)
    (w : World Src) :
  Forall (is_fragment_of star) fragments ->
  Forall (is_fragment_of star)
    (make_fragments n (position star) (velocity star) fragments w).1
  /\ length (make_fragments n (position star) (velocity star) fragments w).1
     = (length fragments + n)%nat.
Proof.
  revert fragments w.
  induction n as [|n IH]; intros fragments w Hall; cbn [make_fragments].
  - split; [done | cbn; lia].
  - sim_unfold.
    destruct (IH (fragments ++
                  [(make_fragment (position star) (velocity star) w).1])
                 (make_fragment (position star) (velocity star) w).2)
      as [Hok Hlen].
    { apply Forall_app. split; [done|].
      constructor; [apply make_fragment_ok | constructor]. }
    split; [exact Hok|]. rewrite Hlen, length_app. cbn. lia.
Qed.

Lemma make_remnant_ok (star : Body) (w : World Src) :
  is_remnant_of star (make_remnant star (position star) (velocity star) w).1
                (rand (rng w)).1.
Proof.
  unfold make_remnant, draw, is_remnant_of. sim_unfold. cbn [fst snd].
  destruct (Rlt_dec (rand (rng w)).1 (75 / 100)); cbn;
    repeat split; try reflexivity; first [lra | f_equal; lra].
Qed.

Lemma trigger_supernova_run (bodies : list Body) (star : Body) (w : World Src) :
  ~ mass star < MASS_THRESHOLD ->
  exists (fragments : list Body) (remnant : Body) (s : Src),
    (trigger_supernova bodies star w).1
    = (match list_remove bodies star with Some l => l | None => bodies end,
       fragments ++ [remnant])
    /\ length fragments = Z.to_nat (randint 6 12 (rng w)).1
    /\ Forall (is_fragment_of star) fragments
    /\ is_remnant_of star remnant (rand s).1.
Proof.
  intros Hge. unfold trigger_supernova.
  destruct (Rlt_dec (mass star) MASS_THRESHOLD); [done|].
  unfold draw. sim_unfold. cbn [fst snd].
  set (w1 := mkWorld _ _).
  destruct (make_fragments_ok star (Z.to_nat (randint 6 12 (rng w)).1) [] w1)
    as [Hok Hlen]; [constructor|].
  eexists _, _, _. split; [reflexivity|].
  split; [exact Hlen|]. split; [exact Hok|]. apply make_remnant_ok.
Qed.
End supernova.

(** C7.  For a target of mass below 20, [trigger_supernova] returns the
    empty list, leaves the bodies as they are and draws no random number.
    For a target of mass at least 20 that is not in the list, the removal
    raises the error the code catches: the list stays as it is and the
    fragments and the remnant are returned all the same.  After one removal
    from a list without repeated objects a second one finds nothing. *)
Theorem supernova_guard {Src} `{RandomSource Src} (bodies : list Body)
    (star : Body) (w : World Src) :
  MASS_THRESHOLD = 20
  /\ (mass star < MASS_THRESHOLD ->
      trigger_supernova bodies star w = ((bodies, []), w))
  /\ (MASS_THRESHOLD <= mass star ->
      Forall (fun b => oid b <> oid star) bodies ->
      list_remove bodies star = None
      /\ exists (fragments : list Body) (remnant : Body),
           (trigger_supernova bodies star w).1 = (bodies, fragments ++ [remnant]))
  /\ (forall after : list Body,
      NoDup (oid <$> bodies) -> list_remove bodies star = Some after ->
      list_remove after star = None).
Proof.
  split; [reflexivity|].
  split; [apply trigger_supernova_below|].
  split; [|intros after; apply list_remove_twice].
  intros Hge Habsent.
  pose proof (list_remove_absent bodies star Habsent) as Hnone.
  split; [exact Hnone|].
  destruct (trigger_supernova_run bodies star w)
    as (fragments & remnant & s & Hrun & _); [lra|].
  exists fragments, remnant. by rewrite Hrun, Hnone.
Qed.

Lemma supernova_guard_witness :
  trigger_supernova [small_star] small_star sample_world
  = (([small_star], []), sample_world)
  /\ exists (fragments : list Body) (remnant : Body),
       (trigger_supernova [small_star] big_star sample_world).1
       = ([small_star], fragments ++ [remnant]).
Proof.
  destruct (supernova_guard [small_star] small_star sample_world)
    as (_ & Hbelow & _).
  destruct (supernova_guard [small_star] big_star sample_world)
    as (_ & _ & Habsent & _).
  split.
  - apply Hbelow. unfold MASS_THRESHOLD. cbn. lra.
  - apply Habsent.
    + unfold MASS_THRESHOLD. cbn. lra.
    + repeat constructor. cbn. lia.
Defined.

Section supernova_draws.
Context {Src : Type} `{RandomSource Src}.

Lemma make_fragment_drawn (star : Body) (w : World Src) :
  fragment_drawn star (rng w)
    (make_fragment (position star) (velocity star) w).1
    (rng (make_fragment (position star) (velocity star) w).2).
Proof.
  unfold fragment_drawn, make_fragment, uniform2, draw, Body_init.
  sim_unfold. cbn [fst snd rng next_oid mass velocity position radius color
                   body_type].
  repeat split; reflexivity.
Qed.

Lemma fragment_drawn_ok (star : Body) (s : Src) (f : Body) (s' : Src) :
  fragment_drawn star s f s' -> is_fragment_of star f.
Proof.
  unfold fragment_drawn, is_fragment_of.
  intros (Hm & Hv & Hp & Hr & Hc & Hk & _).
  split; [rewrite Hm; apply uniform_range; lra|].
  split; [eexists; split; [exact Hv|]; cbn [fst snd];
          split; apply uniform_range; lra|].
  split; [eexists; split; [exact Hp|]; cbn [fst snd];
          split; apply uniform_range; lra|].
  split; [exact Hr|]. split; [|exact Hk].
  rewrite Hc. by apply choice_elem.
Qed.

Lemma fragments_drawn_ok (star : Body) (s : Src) (fs : list Body) (s' : Src) :
  fragments_drawn star s fs s' -> Forall (is_fragment_of star) fs.
Proof.
  induction 1 as [|s f s' fs s'' Hf _ IH]; constructor; [|exact IH].
  by apply (fragment_drawn_ok star s f s').
Qed.

Lemma fragments_drawn_snoc (star : Body) (s : Src) (fs : list Body) (s' : Src)
    (f : Body) (s'' : Src) :
  fragments_drawn star s fs s' -> fragment_drawn star s' f s'' ->
  fragments_drawn star s (fs ++ [f]) s''.
Proof.
  induction 1 as [|s f0 s1 fs s2 Hf0 _ IH]; intros Hf; cbn [app].
  - apply (fragments_drawn_cons star s f s''); [done | constructor].
  - apply (fragments_drawn_cons star s f0 s1); [done | by apply IH].
Qed.

Lemma make_fragments_drawn (star : Body) (n : nat) (fragments : list Body)
    (s0 : Src) (w : World Src) :
  fragments_drawn star s0 fragments (rng w) ->
  fragments_drawn star s0
    (make_fragments n (position star) (velocity star) fragments w).1
    (rng (make_fragments n (position star) (velocity star) fragments w).2).
Proof.
  revert fragments w.
  induction n as [|n IH]; intros fragments w Hfs; cbn [make_fragments].
  - exact Hfs.
  - sim_unfold. apply IH.
    apply (fragments_drawn_snoc star s0 fragments (rng w)); [done|].
    apply make_fragment_drawn.
Qed.

Lemma make_remnant_draw (star : Body) (w : World Src) :
  rng (make_remnant star (position star) (velocity star) w).2 = (rand (rng w)).2.
Proof.
  unfold make_remnant, draw. sim_unfold. cbn [fst snd].
  by destruct (Rlt_dec (rand (rng w)).1 (75 / 100)).
Qed.

(** The draws of one explosion, in the order they are taken *)
Lemma trigger_supernova_draws (bodies : list Body) (star : Body) (w : World Src) :
  ~ mass star < MASS_THRESHOLD ->
  exists (fragments : list Body) (remnant : Body) (s : Src),
    (trigger_supernova bodies star w).1
    = (match list_remove bodies star with Some l => l | None => bodies end,
       fragments ++ [remnant])
    /\ length fragments = Z.to_nat (randint 6 12 (rng w)).1
    /\ fragments_drawn star (randint 6 12 (rng w)).2 fragments s
    /\ is_remnant_of star remnant (rand s).1
    /\ rng (trigger_supernova bodies star w).2 = (rand s).2.
Proof.
  intros Hge. unfold trigger_supernova.
  destruct (Rlt_dec (mass star) MASS_THRESHOLD); [done|].
  unfold draw at 1. sim_unfold. cbn [fst snd].
  set (w1 := mkWorld _ _).
  destruct (make_fragments_ok star (Z.to_nat (randint 6 12 (rng w)).1) [] w1)
    as [_ Hlen]; [constructor|].
  pose proof (make_fragments_drawn star (Z.to_nat (randint 6 12 (rng w)).1) []
                (randint 6 12 (rng w)).2 w1 (fragments_drawn_nil star _)) as Hdr.
  eexists _, _, _. split; [reflexivity|].
  split; [exact Hlen|]. split; [exact Hdr|].
  split; [apply make_remnant_ok | apply make_remnant_draw].
Qed.
End supernova_draws.

(** The sample source answers every draw of a fragment with the least value
    and stays in the state it is in. *)
Lemma least_fragments_drawn (star : Body) (s0 : bool) (fs : list Body) (s : bool) :
  fragments_drawn star s0 fs s ->
  s = s0
  /\ Forall (fun f => mass f = 5 / 100
                     /\ velocity f = vadd (velocity star) (- 2, - 2)) fs.
Proof.
  induction 1 as [s|s f s' fs s'' Hf _ IH]; [by split|].
  destruct Hf as (Hm & Hv & _ & _ & _ & _ & Hs). cbn in Hm, Hv, Hs. subst s'.
  destruct IH as [-> Hall]. split; [done|]. by constructor.
Qed.

(** C8.  For a target of mass at least 20 and every random source,
    [trigger_supernova] drops the target from the list and returns [n]
    fragments followed by one remnant.  [n] is the first number taken from
    the source, a draw of [randint(6, 12)]; the fragments are made, one
    after the other, of the next draws of the source, six each, as
    [fragment_drawn] says, so that each is as [is_fragment_of] says; the
    remnant's kind is decided by the draw of [rand()] that comes after the
    last fragment's, against 0.75, and the remnant is as [is_remnant_of]
    says for that draw; no other number is drawn. *)
Theorem supernova_outcome {Src} `{RandomSource Src} (bodies : list Body)
    (star : Body) (w : World Src) :
  MASS_THRESHOLD <= mass star ->
  exists (fragments : list Body) (remnant : Body) (s : Src),
    (6 <= (randint 6 12 (rng w)).1 < 12)%Z
    /\ removed_from bodies star (trigger_supernova bodies star w).1.1
    /\ (trigger_supernova bodies star w).1.2 = fragments ++ [remnant]
    /\ length fragments = Z.to_nat (randint 6 12 (rng w)).1
    /\ fragments_drawn star (randint 6 12 (rng w)).2 fragments s
    /\ Forall (is_fragment_of star) fragments
    /\ 0 <= (rand s).1 < 1
    /\ is_remnant_of star remnant (rand s).1
    /\ rng (trigger_supernova bodies star w).2 = (rand s).2.
Proof.
  intros Hge.
  destruct (trigger_supernova_draws bodies star w)
    as (fragments & remnant & s & Hrun & Hlen & Hdr & Hrem & Hrng); [lra|].
  exists fragments, remnant, s.
  rewrite Hrun. cbn [fst snd].
  split; [by apply randint_range|].
  split.
  { unfold removed_from.
    destruct (list_remove_spec bodies star)
      as [[-> Hall]|(l1 & s' & l2 & Hb & Hs & Hl1 & ->)]; [by left|].
    right. by exists l1, s', l2. }
  split; [done|]. split; [done|]. split; [done|].
  split; [by apply (fragments_drawn_ok star (randint 6 12 (rng w)).2 fragments s)|].
  split; [apply rand_range|]. by split.
Qed.

Lemma supernova_outcome_witness :
  exists (fragments : list Body) (remnant : Body),
    (trigger_supernova [planet_a; big_star] big_star sample_world).1
    = ([planet_a], fragments ++ [remnant])
    /\ length fragments = 6%nat
    /\ Forall (fun f => mass f = 5 / 100
                       /\ velocity f = vadd (velocity big_star) (- 2, - 2))
              fragments
    /\ body_type remnant = "blackhole"%string
    /\ mass remnant = 4 / 10 * 25.
Proof.
  destruct (supernova_outcome [planet_a; big_star] big_star sample_world)
    as (fragments & remnant & s & _ & _ & Hres & Hlen & Hdr & _ & _ & Hrem & _).
  { unfold MASS_THRESHOLD. cbn. lra. }
  exists fragments, remnant.
  split.
  { rewrite <- Hres.
    assert (Hafter : (trigger_supernova [planet_a; big_star] big_star
                        sample_world).1.1 = [planet_a]).
    { unfold trigger_supernova.
      destruct (Rlt_dec (mass big_star) MASS_THRESHOLD) as [Hlt|_];
        [unfold MASS_THRESHOLD in Hlt; cbn in Hlt; lra | reflexivity]. }
    rewrite <- Hafter. by destruct (trigger_supernova _ _ _).1. }
  split; [exact Hlen|].
  destruct (least_fragments_drawn big_star _ fragments s Hdr) as [-> Hall].
  split; [exact Hall|].
  destruct Hrem as (_ & _ & Hrem). cbn in Hrem.
  destruct (Rlt_dec 0 (75 / 100)) as [_|Hn]; [tauto | lra].
Defined.

(** Both remnants occur: with the sample source, [rand()] answers 0 in one
    state and 0.9 in the other. *)

Lemma least_fragment_rng (pos vel : vec) (w : World bool) :
  rng (make_fragment pos vel w).2 = rng w.
Proof. reflexivity. Qed.

Lemma least_fragments_rng (n : nat) (pos vel : vec) (fragments : list Body)
    (w : World bool) :
  rng (make_fragments n pos vel fragments w).2 = rng w.
Proof.
  revert fragments w. induction n as [|n IH]; intros fragments w; [done|].
  cbn [make_fragments]. sim_unfold. by rewrite IH.
Qed.

Lemma trigger_supernova_remnant {Src} `{RandomSource Src} (bodies : list Body)
    (star : Body) (w : World Src) :
  ~ mass star < MASS_THRESHOLD ->
  let fr := make_fragments (Z.to_nat (randint 6 12 (rng w)).1) (position star)
              (velocity star) [] (draw (randint 6 12) w).2 in
  (trigger_supernova bodies star w).1.2
  = fr.1 ++ [(make_remnant star (position star) (velocity star) fr.2).1].
Proof.
  intros Hge. unfold trigger_supernova.
  by destruct (Rlt_dec (mass star) MASS_THRESHOLD).
Qed.

Lemma big_star_eligible : ~ mass big_star < MASS_THRESHOLD.
Proof. unfold MASS_THRESHOLD. cbn. lra. Qed.

Lemma supernova_leaves_black_hole :
  exists (fragments : list Body) (remnant : Body),
    (trigger_supernova [big_star] big_star (mkWorld 10 true)).1
    = ([], fragments ++ [remnant])
    /\ length fragments = 6%nat
    /\ body_type remnant = "blackhole"%string /\ mass remnant = 10
    /\ position remnant = (3, 4) /\ velocity remnant = (1, 0).
Proof.
  pose proof (trigger_supernova_remnant [big_star] big_star (mkWorld 10 true)
                big_star_eligible) as Hres.
  destruct (trigger_supernova_run [big_star] big_star (mkWorld 10 true)
              big_star_eligible) as (fragments' & remnant' & s & Hrun & Hlen & _).
  pose proof (least_fragments_rng
                (Z.to_nat (randint 6 12 (rng (mkWorld 10 true))).1)
                (position big_star) (velocity big_star) []
                (draw (randint 6 12) (mkWorld 10 true)).2) as Hrng.
  cbv zeta in Hres.
  destruct (make_fragments _ _ _ _ _) as [fragments w'].
  cbn [fst snd] in Hres, Hrng. cbn in Hrng.
  exists fragments, (make_remnant big_star (position big_star)
                       (velocity big_star) w').1.
  split.
  { rewrite <- Hres. rewrite Hrun. reflexivity. }
  split.
  { rewrite Hrun in Hres. cbn [snd] in Hres.
    apply app_inj_tail in Hres as [-> _]. exact Hlen. }
  unfold make_remnant, draw. sim_unfold. cbn [fst snd]. rewrite Hrng. cbn.
  destruct (Rlt_dec 0 (75 / 100)); [|lra]. cbn.
  repeat split; lra.
Qed.

Lemma supernova_leaves_star :
  exists (fragments : list Body) (remnant : Body),
    (trigger_supernova [big_star] big_star (mkWorld 10 false)).1
    = ([], fragments ++ [remnant])
    /\ length fragments = 6%nat
    /\ body_type remnant = "star"%string /\ mass remnant = 5
    /\ position remnant = (3, 4) /\ velocity remnant = (1, 0).
Proof.
  pose proof (trigger_supernova_remnant [big_star] big_star (mkWorld 10 false)
                big_star_eligible) as Hres.
  destruct (trigger_supernova_run [big_star] big_star (mkWorld 10 false)
              big_star_eligible) as (fragments' & remnant' & s & Hrun & Hlen & _).
  pose proof (least_fragments_rng
                (Z.to_nat (randint 6 12 (rng (mkWorld 10 false))).1)
                (position big_star) (velocity big_star) []
                (draw (randint 6 12) (mkWorld 10 false)).2) as Hrng.
  cbv zeta in Hres.
  destruct (make_fragments _ _ _ _ _) as [fragments w'].
  cbn [fst snd] in Hres, Hrng. cbn in Hrng.
  exists fragments, (make_remnant big_star (position big_star)
                       (velocity big_star) w').1.
  split.
  { rewrite <- Hres. rewrite Hrun. reflexivity. }
  split.
  { rewrite Hrun in Hres. cbn [snd] in Hres.
    apply app_inj_tail in Hres as [-> _]. exact Hlen. }
  unfold make_remnant, draw. sim_unfold. cbn [fst snd]. rewrite Hrng. cbn.
  destruct (Rlt_dec (9 / 10) (75 / 100)); [lra|]. cbn.
  repeat split; lra.
Qed.

Lemma fragment_live (star f : Body) : is_fragment_of star f -> live f.
Proof.
  intros (Hm & _ & _ & Hr & _). split; [lra|].
  rewrite Hr. pose proof (Rmax_l (2 / 100) (sqrt (mass f) * (3 / 100))). lra.
Qed.

Lemma remnant_live (star r : Body) (u : R) :
  MASS_THRESHOLD <= mass star -> is_remnant_of star r u -> live r.
Proof.
  unfold MASS_THRESHOLD. intros Hge (_ & _ & Hrem).
  destruct (Rlt_dec u (75 / 100)); destruct Hrem as (_ & Hm & Hr);
    (split; [lra|]); rewrite Hr.
  - pose proof (Rmax_l (5 / 100) (6 / 10 * radius star)). lra.
  - pose proof (Rmax_l (4 / 100) (5 / 10 * radius star)). lra.
Qed.

Lemma trigger_supernova_live {Src} `{RandomSource Src} (bodies : list Body)
    (star : Body) (w : World Src) :
  Forall live bodies ->
  Forall live (trigger_supernova bodies star w).1.1
  /\ Forall live (trigger_supernova bodies star w).1.2.
Proof.
  intros Hall.
  destruct (Rlt_dec (mass star) MASS_THRESHOLD) as [Hlt|Hge].
  - rewrite trigger_supernova_below by done. cbn. split; [done | constructor].
  - destruct (trigger_supernova_run bodies star w Hge)
      as (fragments & remnant & s & -> & _ & Hfr & Hrem).
    cbn [fst snd]. split.
    + destruct (list_remove_spec bodies star)
        as [[-> _]|(l1 & s' & l2 & -> & _ & _ & ->)]; [done|].
      apply Forall_app in Hall as [H1 H2]. apply Forall_cons in H2 as [_ H2].
      apply Forall_app. done.
    + apply Forall_app. split.
      * eapply Forall_impl; [exact Hfr|]. apply fragment_live.
      * constructor; [|constructor].
        apply (remnant_live star remnant (rand s).1); [lra | done].
Qed.


(** ** The invariant of the data model *)

(** C10.  If every body of the list has positive mass and radius, so has
    every body after an integration step, after collision resolution, and
    after a supernova (the remaining bodies, the fragments and the remnant);
    the integration step leaves every body's kind as it was. *)
Theorem live_is_invariant {Src} `{RandomSource Src} (bodies : list Body)
    (dt : R) (star : Body) (w : World Src) :
  Forall live bodies ->
  Forall live (velocity_verlet_step bodies dt)
  /\ body_type <$> velocity_verlet_step bodies dt = body_type <$> bodies
  /\ Forall live (handle_collisions bodies w).1.1
  /\ Forall live (trigger_supernova bodies star w).1.1
  /\ Forall live (trigger_supernova bodies star w).1.2.
Proof.
  intros Hall. rewrite velocity_verlet_step_verlet.
  split; [by apply verlet_live|].
  split; [apply verlet_keeps|].
  split; [by apply handle_collisions_live|].
  by apply trigger_supernova_live.
Qed.

Lemma live_is_invariant_witness :
  Forall live (velocity_verlet_step [planet_a; planet_b] (1 / 1000))
  /\ body_type <$> velocity_verlet_step [planet_a; planet_b] (1 / 1000)
     = body_type <$> [planet_a; planet_b]
  /\ Forall live (handle_collisions [planet_a; planet_b] sample_world).1.1
  /\ Forall live (trigger_supernova [planet_a; planet_b] big_star sample_world).1.1
  /\ Forall live (trigger_supernova [planet_a; planet_b] big_star sample_world).1.2.
Proof.
  apply (live_is_invariant [planet_a; planet_b] (1 / 1000) big_star sample_world).
  repeat constructor; cbn; lra.
Defined.


(** * Further properties of the code *)

(** ** Sums of vectors *)

Lemma vsum_cons (x : vec) (l : list vec) : vsum (x :: l) = vadd x (vsum l).
Proof. reflexivity. Qed.

Lemma vsum_fmap_add {A} (g h : A -> vec) (l : list A) :
  vsum ((fun x => vadd (g x) (h x)) <$> l) = vadd (vsum (g <$> l)) (vsum (h <$> l)).
Proof.
  induction l as [|x l IH]; cbn [fmap list_fmap].
  - unfold vsum, vadd, vzero. cbn. f_equal; lra.
  - rewrite !vsum_cons, IH. unfold vadd. cbn. f_equal; lra.
Qed.

Lemma vsum_fmap_scale {A} (s : R) (g : A -> vec) (l : list A) :
  vsum ((fun x => smulv s (g x)) <$> l) = smulv s (vsum (g <$> l)).
Proof.
  induction l as [|x l IH]; cbn [fmap list_fmap].
  - unfold vsum, smulv, vzero. cbn. f_equal; lra.
  - rewrite !vsum_cons, IH. unfold vadd, smulv. cbn. f_equal; lra.
Qed.

Lemma vsum_fmap_zero {A} (g : A -> vec) (l : list A) :
  (forall x, x ∈ l -> g x = vzero) -> vsum (g <$> l) = vzero.
Proof.
  induction l as [|x l IH]; intros Hz; [done|].
  cbn [fmap list_fmap]. rewrite vsum_cons, (Hz x), IH.
  - apply vadd_zero_l.
  - intros y Hy. apply Hz. by apply elem_of_cons; right.
  - apply list_elem_of_here.
Qed.

Lemma vsum_perm (l1 l2 : list vec) : l1 ≡ₚ l2 -> vsum l1 = vsum l2.
Proof.
  induction 1 as [|x l1 l2 _ IH|x y l|l1 l2 l3 _ IH1 _ IH2].
  - done.
  - by rewrite !vsum_cons, IH.
  - rewrite !vsum_cons. unfold vadd. cbn. f_equal; lra.
  - by rewrite IH1.
Qed.

(** A double sum of an antisymmetric term vanishes. *)
Lemma vsum_antisymmetric {A} (f : A -> A -> vec) (l : list A) :
  (forall x y, f x y = vneg (f y x)) ->
  vsum ((fun x => vsum (f x <$> l)) <$> l) = vzero.
Proof.
  intros Hanti.
  assert (Hdiag : forall x, f x x = vzero).
  { intros x. pose proof (Hanti x x) as H. destruct (f x x) as [a b].
    unfold vneg, vzero in *. cbn in H. injection H as Ha Hb. f_equal; lra. }
  induction l as [|a l IH]; [done|].
  cbn [fmap list_fmap]. rewrite !vsum_cons.
  change (vsum ((fun x => vsum (f x a :: (f x <$> l))) <$> l))
    with (vsum ((fun x => vadd (f x a) (vsum (f x <$> l))) <$> l)).
  rewrite (vsum_fmap_add (fun x => f x a) (fun x => vsum (f x <$> l)) l).
  rewrite IH, Hdiag, vadd_zero_l, vadd_zero_r.
  rewrite <- (vsum_fmap_add (f a) (fun x => f x a) l). apply vsum_fmap_zero.
  intros y _. rewrite (Hanti y a). destruct (f a y) as [u v].
  unfold vadd, vneg, vzero. cbn. f_equal; lra.
Qed.

(** ** Newton's third law *)

Lemma pull_antisymmetric (b b' : Body) :
  smulv (mass b) (pull (position b) b')
  = vneg (smulv (mass b') (pull (position b') b)).
Proof.
  unfold pull, smulv, vdivs, vneg, vsub. cbn [fst snd].
  replace (vdot ((position b).1 - (position b').1, (position b).2 - (position b').2)
                ((position b).1 - (position b').1, (position b).2 - (position b').2))
    with (vdot ((position b').1 - (position b).1, (position b').2 - (position b).2)
               ((position b').1 - (position b).1, (position b').2 - (position b).2))
    by (unfold vdot; cbn; ring).
  unfold Rdiv. f_equal; ring.
Qed.

Lemma weighted_gravity (bodies : list Body) :
  zip_with smulv (mass <$> bodies) (imap (gravity bodies) bodies)
  = (fun b => smulv G (vsum ((fun b' => smulv (mass b) (pull (position b) b'))
                               <$> bodies))) <$> bodies.
Proof.
  rewrite (fmap_as_imap mass), zip_with_imap, fmap_as_imap.
  apply imap_ext. intros i b Hb. cbn beta.
  rewrite (gravity_all bodies i b Hb), vsum_fmap_scale.
  unfold smulv. cbn. f_equal; ring.
Qed.

Lemma net_force_gravity (bodies : list Body) :
  net_force bodies (imap (gravity bodies) bodies) = vzero.
Proof.
  unfold net_force. rewrite weighted_gravity, vsum_fmap_scale.
  rewrite (vsum_antisymmetric
             (fun b b' => smulv (mass b) (pull (position b) b')) bodies).
  - unfold smulv, vzero. cbn. f_equal; ring.
  - intros x y. apply pull_antisymmetric.
Qed.

(** X1.  The accelerations [accel] returns obey Newton's third law: the
    forces [m_i·a_i] of a body set add up to zero. *)
Theorem accel_net_force_zero (bodies : list Body) :
  net_force bodies (accel (position <$> bodies) (mass <$> bodies)) = vzero.
Proof. rewrite accel_gravity. apply net_force_gravity. Qed.

(** ** Momentum under the integration step *)

Lemma vsum_imap_add {A} (g h : nat -> A -> vec) (l : list A) :
  vsum (imap (fun i x => vadd (g i x) (h i x)) l)
  = vadd (vsum (imap g l)) (vsum (imap h l)).
Proof.
  revert g h. induction l as [|x l IH]; intros g h.
  - unfold vsum, vadd, vzero. cbn. f_equal; lra.
  - rewrite !imap_cons, !vsum_cons.
    pose proof (IH (g ∘ S) (h ∘ S)) as IH'. unfold compose in *.
    rewrite IH'. unfold vadd. cbn. f_equal; lra.
Qed.

Lemma vsum_imap_scale {A} (s : R) (g : nat -> A -> vec) (l : list A) :
  vsum (imap (fun i x => smulv s (g i x)) l) = smulv s (vsum (imap g l)).
Proof.
  revert g. induction l as [|x l IH]; intros g.
  - unfold vsum, smulv, vzero. cbn. f_equal; lra.
  - rewrite !imap_cons, !vsum_cons.
    pose proof (IH (g ∘ S)) as IH'. unfold compose in *.
    rewrite IH'. unfold vadd, smulv. cbn. f_equal; lra.
Qed.

Lemma net_force_imap (bodies : list Body) (a : nat -> Body -> vec) :
  net_force bodies (imap a bodies)
  = vsum (imap (fun i b => smulv (mass b) (a i b)) bodies).
Proof.
  unfold net_force. by rewrite (fmap_as_imap mass), zip_with_imap.
Qed.

Lemma net_force_moved (bodies : list Body) (dt : R) :
  vsum (imap (fun i b => smulv (mass b)
                (gravity (moved bodies dt) i
                   (set_state b (stepped_position bodies dt i b) (velocity b))))
             bodies) = vzero.
Proof.
  rewrite <- (net_force_imap bodies
                (fun i b => gravity (moved bodies dt) i
                   (set_state b (stepped_position bodies dt i b) (velocity b)))).
  rewrite <- gravity_moved. unfold net_force.
  rewrite <- (mass_moved bodies dt). apply net_force_gravity.
Qed.

Lemma total_momentum_verlet (bodies : list Body) (dt : R) :
  total_momentum (verlet bodies dt) = total_momentum bodies.
Proof.
  unfold total_momentum, verlet. rewrite fmap_imap.
  set (a := fun i b => smulv (mass b) (gravity bodies i b)).
  set (a' := fun i b => smulv (mass b)
                (gravity (moved bodies dt) i
                   (set_state b (stepped_position bodies dt i b) (velocity b)))).
  rewrite (imap_ext _
             (fun i b => vadd (momentum b)
                           (vadd (smulv (dt / 2) (a i b)) (smulv (dt / 2) (a' i b))))).
  - rewrite vsum_imap_add, vsum_imap_add, !vsum_imap_scale.
    subst a a'. rewrite net_force_moved.
    rewrite <- (net_force_imap bodies (gravity bodies)), net_force_gravity.
    rewrite <- fmap_as_imap.
    unfold vadd, smulv, vzero. cbn.
    destruct (vsum (momentum <$> bodies)) as [x y]. cbn. f_equal; ring.
  - intros i b _. subst a a'. cbn beta.
    unfold momentum, stepped_velocity, half_velocity, set_state, compose.
    cbn [mass velocity].
    generalize (gravity bodies i b).
    generalize (gravity (moved bodies dt) i
                  {| oid := oid b; position := stepped_position bodies dt i b;
                     velocity := velocity b; mass := mass b; radius := radius b;
                     color := color b; body_type := body_type b |}).
    intros [a1 a2] [g1 g2]. unfold vadd, smulv, vmuls. cbn. f_equal; field.
Qed.

(** X2.  One integration step leaves the total momentum [Σ m_i·v_i] of the
    body set as it was, whatever the time step. *)
Theorem step_conserves_momentum (bodies : list Body) (dt : R) :
  total_momentum (velocity_verlet_step bodies dt) = total_momentum bodies.
Proof. rewrite velocity_verlet_step_verlet. apply total_momentum_verlet. Qed.

(** ** Time reversal *)

Lemma reverse_half_velocity (bodies : list Body) (dt : R) (i : nat) (b : Body) :
  half_velocity (verlet bodies dt) (- dt) i
    (set_state b (stepped_position bodies dt i b) (stepped_velocity bodies dt i b))
  = half_velocity bodies dt i b.
Proof.
  unfold half_velocity at 1.
  rewrite (gravity_same_place (verlet bodies dt) (moved bodies dt) i _
             (set_state b (stepped_position bodies dt i b) (velocity b)))
    by (apply verlet_same_place_moved || reflexivity).
  cbn [velocity set_state]. unfold stepped_velocity.
  generalize (gravity (moved bodies dt) i
                (set_state b (stepped_position bodies dt i b) (velocity b))).
  generalize (half_velocity bodies dt i b).
  intros [h1 h2] [a1 a2]. unfold vadd, vmuls, smulv. cbn. f_equal; field.
Qed.

Lemma reverse_position (bodies : list Body) (dt : R) (i : nat) (b : Body) :
  stepped_position (verlet bodies dt) (- dt) i
    (set_state b (stepped_position bodies dt i b) (stepped_velocity bodies dt i b))
  = position b.
Proof.
  unfold stepped_position at 1. rewrite reverse_half_velocity.
  cbn [position set_state]. unfold stepped_position.
  generalize (half_velocity bodies dt i b). destruct (position b) as [p1 p2].
  intros [h1 h2]. unfold vadd, vmuls. cbn. f_equal; ring.
Qed.

Lemma reverse_moved (bodies : list Body) (dt : R) :
  Forall2 same_place (moved (verlet bodies dt) (- dt)) bodies.
Proof.
  apply Forall2_same_length_lookup. split.
  - unfold moved, verlet. by rewrite !length_imap.
  - intros k x y. unfold moved. rewrite list_lookup_imap, verlet_lookup.
    destruct (bodies !! k) as [b|] eqn:Hb; [|done]. cbn.
    intros [= <-] [= <-]. split; [|reflexivity].
    cbn [position set_state]. by apply reverse_position.
Qed.

Lemma verlet_reverse (bodies : list Body) (dt : R) :
  verlet (verlet bodies dt) (- dt) = bodies.
Proof.
  apply list_eq; intros i. rewrite !verlet_lookup.
  destruct (bodies !! i) as [b|] eqn:Hb; [|done]. cbn. f_equal.
  set (b' := set_state b (stepped_position bodies dt i b)
                         (stepped_velocity bodies dt i b)).
  assert (Hp : stepped_position (verlet bodies dt) (- dt) i b' = position b)
    by by apply reverse_position.
  assert (Hv : stepped_velocity (verlet bodies dt) (- dt) i b' = velocity b).
  { unfold stepped_velocity at 1. unfold b' at 1.
    rewrite (reverse_half_velocity bodies dt i b).
    rewrite (gravity_same_place (moved (verlet bodies dt) (- dt)) bodies i
               (set_state b' (stepped_position (verlet bodies dt) (- dt) i b')
                          (velocity b')) b)
      by (apply reverse_moved || (cbn [position set_state]; exact Hp)).
    unfold half_velocity. generalize (gravity bodies i b).
    destruct (velocity b) as [v1 v2]. intros [a1 a2].
    unfold vadd, vmuls, smulv. cbn. f_equal; field. }
  rewrite Hp, Hv. by destruct b.
Qed.

(** X3.  The integration step is reversible: a step by [dt] followed by a
    step by [-dt] gives back every body exactly as it was. *)
Theorem step_is_reversible (bodies : list Body) (dt : R) :
  velocity_verlet_step (velocity_verlet_step bodies dt) (- dt) = bodies.
Proof. rewrite !velocity_verlet_step_verlet. apply verlet_reverse. Qed.

(** ** Change of frame *)

Lemma vsub_displaced (p q c : vec) : vsub (vadd q c) (vadd p c) = vsub q p.
Proof. unfold vsub, vadd. cbn. f_equal; ring. Qed.

Lemma pull_displaced (c p : vec) (l l' : list Body) :
  Forall2 (displaced c) l l' -> pull (vadd p c) <$> l' = pull p <$> l.
Proof.
  induction 1 as [|b b' l l' [Hp Hm] _ IH]; [done|].
  cbn [fmap list_fmap]. f_equal; [|exact IH].
  unfold pull. by rewrite Hp, Hm, vsub_displaced.
Qed.

Lemma gravity_displaced (c : vec) (l l' : list Body) (i : nat) (b b' : Body) :
  Forall2 (displaced c) l l' -> position b' = vadd (position b) c ->
  gravity l' i b' = gravity l i b.
Proof.
  intros Hl Hb. unfold gravity, others. rewrite Hb, !fmap_app.
  rewrite (pull_displaced c _ (take i l) (take i l')) by by apply Forall2_take.
  by rewrite (pull_displaced c _ (drop (S i) l) (drop (S i) l'))
    by by apply Forall2_drop.
Qed.

Lemma displaced_shifted (c u : vec) (bodies : list Body) :
  Forall2 (displaced c) bodies (shifted c u <$> bodies).
Proof.
  apply Forall2_fmap_r, Forall_Forall2_diag, Forall_forall.
  intros b _. by split.
Qed.

Lemma shifted_half_velocity (c u : vec) (bodies : list Body) (dt : R) (i : nat)
    (b : Body) :
  half_velocity (shifted c u <$> bodies) dt i (shifted c u b)
  = vadd (half_velocity bodies dt i b) u.
Proof.
  unfold half_velocity.
  rewrite (gravity_displaced c bodies (shifted c u <$> bodies) i b)
    by (apply displaced_shifted || reflexivity).
  cbn [velocity shifted set_state].
  generalize (gravity bodies i b). destruct (velocity b) as [v1 v2], u as [u1 u2].
  intros [a1 a2]. unfold vadd, vmuls, smulv. cbn. f_equal; ring.
Qed.

Lemma shifted_position (c u : vec) (bodies : list Body) (dt : R) (i : nat)
    (b : Body) :
  stepped_position (shifted c u <$> bodies) dt i (shifted c u b)
  = vadd (stepped_position bodies dt i b) (vadd c (vmuls u dt)).
Proof.
  unfold stepped_position. rewrite shifted_half_velocity.
  cbn [position shifted set_state].
  generalize (half_velocity bodies dt i b).
  destruct (position b) as [p1 p2], u as [u1 u2], c as [c1 c2].
  intros [h1 h2]. unfold vadd, vmuls. cbn. f_equal; ring.
Qed.

Lemma displaced_moved (c u : vec) (bodies : list Body) (dt : R) :
  Forall2 (displaced (vadd c (vmuls u dt)))
          (moved bodies dt) (moved (shifted c u <$> bodies) dt).
Proof.
  apply Forall2_same_length_lookup. split.
  - unfold moved. by rewrite !length_imap, length_fmap.
  - intros k x y. unfold moved. rewrite !list_lookup_imap, list_lookup_fmap.
    destruct (bodies !! k) as [b|] eqn:Hb; [|done]. cbn.
    intros [= <-] [= <-]. split; [|reflexivity].
    cbn [position set_state]. apply shifted_position.
Qed.

Lemma verlet_shifted (c u : vec) (bodies : list Body) (dt : R) :
  verlet (shifted c u <$> bodies) dt
  = shifted (vadd c (vmuls u dt)) u <$> verlet bodies dt.
Proof.
  apply list_eq; intros i.
  rewrite list_lookup_fmap, !verlet_lookup, list_lookup_fmap.
  destruct (bodies !! i) as [b|] eqn:Hb; [|done]. cbn. f_equal.
  assert (Hv : stepped_velocity (shifted c u <$> bodies) dt i (shifted c u b)
               = vadd (stepped_velocity bodies dt i b) u).
  { unfold stepped_velocity. rewrite shifted_half_velocity.
    rewrite (gravity_displaced (vadd c (vmuls u dt)) (moved bodies dt)
               (moved (shifted c u <$> bodies) dt) i
               (set_state b (stepped_position bodies dt i b) (velocity b)))
      by (apply displaced_moved || (cbn [position set_state];
                                    apply shifted_position)).
    generalize (gravity (moved bodies dt) i
                  (set_state b (stepped_position bodies dt i b) (velocity b))).
    generalize (half_velocity bodies dt i b). destruct u as [u1 u2].
    intros [h1 h2] [a1 a2]. unfold vadd, vmuls, smulv. cbn. f_equal; ring. }
  rewrite Hv, shifted_position. reflexivity.
Qed.

(** X4.  The integration step does not depend on the frame: displacing
    every body by [c] and adding [u] to every velocity displaces the result
    by [c + u·dt] and adds [u] to its velocities, and changes nothing else. *)
Theorem step_is_frame_independent (c u : vec) (bodies : list Body) (dt : R) :
  velocity_verlet_step (shifted c u <$> bodies) dt
  = shifted (vadd c (vmuls u dt)) u <$> velocity_verlet_step bodies dt.
Proof. rewrite !velocity_verlet_step_verlet. apply verlet_shifted. Qed.

(** ** A body alone *)

(** X5.  A body alone in the set feels no force: one step moves it by
    [v·dt], so that its position is [p + v·dt], and leaves its velocity
    and every other field as they were. *)
Theorem lone_body_moves_uniformly (b : Body) (dt : R) :
  exists b' : Body,
    velocity_verlet_step [b] dt = [b']
    /\ position b' = vadd (position b) (vmuls (velocity b) dt)
    /\ velocity b' = velocity b
    /\ oid b' = oid b /\ mass b' = mass b /\ radius b' = radius b
    /\ color b' = color b /\ body_type b' = body_type b.
Proof.
  rewrite velocity_verlet_step_verlet. unfold verlet. cbn [imap].
  assert (Hg : gravity [b] 0 b = vzero).
  { unfold gravity, others, smulv, vzero. cbn. f_equal; ring. }
  assert (Hh : half_velocity [b] dt 0 b = velocity b).
  { unfold half_velocity. rewrite Hg.
    destruct (velocity b) as [v1 v2]. unfold vadd, vmuls, smulv, vzero. cbn.
    f_equal; ring. }
  assert (Hp : stepped_position [b] dt 0 b
               = vadd (position b) (vmuls (velocity b) dt)).
  { unfold stepped_position. by rewrite Hh. }
  assert (Hv : stepped_velocity [b] dt 0 b = velocity b).
  { unfold stepped_velocity. rewrite Hh.
    assert (Hm : gravity (moved [b] dt) 0
                   (set_state b (stepped_position [b] dt 0 b) (velocity b))
                 = vzero).
    { unfold gravity, others, moved, smulv, vzero. cbn. f_equal; ring. }
    rewrite Hm. destruct (velocity b) as [v1 v2].
    unfold vadd, vmuls, smulv, vzero. cbn. f_equal; ring. }
  eexists. split; [reflexivity|].
  cbn [set_state position velocity oid mass radius color body_type].
  by rewrite Hp, Hv.
Qed.

(** ** What softening buys *)

Lemma Rpower_three_halves (s : R) : 0 < s -> Rpower s (15 / 10) = s * sqrt s.
Proof.
  intros Hs. replace (15 / 10) with (1 + / 2) by lra.
  by rewrite Rpower_plus, Rpower_1, Rpower_sqrt.
Qed.

Lemma softened_ratio (x y : R) :
  let s := x * x + y * y + SOFTENING ^ 2 in
  Rabs x / Rpower s (15 / 10) <= / (2 * SOFTENING ^ 2).
Proof.
  intros s. unfold SOFTENING in *.
  assert (He : 0 < 1 / 1000) by lra.
  assert (Hs : (1 / 1000) ^ 2 <= s) by (subst s; nra).
  assert (Hs0 : 0 < s) by nra.
  rewrite Rpower_three_halves by done.
  assert (Hq : 1 / 1000 <= sqrt s).
  { rewrite <- (sqrt_pow2 (1 / 1000)) by lra. by apply sqrt_le_1_alt. }
  assert (Hx : 2 * Rabs x * (1 / 1000) <= s).
  { subst s.
    assert (Hsq : x * x = Rabs x * Rabs x).
    { unfold Rabs. destruct (Rcase_abs x); ring. }
    rewrite Hsq. generalize (Rabs x). intros a.
    pose proof (Rle_0_sqr (a - 1 / 1000)) as H1.
    pose proof (Rle_0_sqr y) as H2. unfold Rsqr in H1, H2. lra. }
  assert (Hden : 0 < s * sqrt s) by nra.
  apply (Rmult_le_reg_r (s * sqrt s)); [done|].
  unfold Rdiv. rewrite Rmult_assoc, Rinv_l by lra. rewrite Rmult_1_r.
  apply (Rmult_le_reg_l (2 * (1 / 1000) ^ 2)); [nra|].
  rewrite <- Rmult_assoc, Rinv_r by nra. rewrite Rmult_1_l.
  pose proof (Rabs_pos x). nra.
Qed.

Lemma pull_bounded (p : vec) (b : Body) :
  0 <= mass b ->
  Rabs (pull p b).1 <= mass b * / (2 * SOFTENING ^ 2)
  /\ Rabs (pull p b).2 <= mass b * / (2 * SOFTENING ^ 2).
Proof.
  intros Hm. unfold pull, vdivs, smulv, vdot. cbn [fst snd].
  set (d := vsub (position b) p). destruct d as [x y]. cbn [fst snd].
  pose proof (softened_ratio x y) as Hx. pose proof (softened_ratio y x) as Hy.
  cbv zeta in Hx, Hy.
  replace (y * y + x * x + SOFTENING ^ 2) with (x * x + y * y + SOFTENING ^ 2)
    in Hy by ring.
  assert (HP : 0 < Rpower (x * x + y * y + SOFTENING ^ 2) (15 / 10))
    by apply exp_pos.
  assert (Hinv : 0 < / Rpower (x * x + y * y + SOFTENING ^ 2) (15 / 10))
    by by apply Rinv_0_lt_compat.
  unfold Rdiv in *.
  split.
  - rewrite !Rabs_mult, (Rabs_pos_eq (mass b)) by done.
    rewrite (Rabs_pos_eq (/ _)) by lra. rewrite Rmult_assoc.
    by apply Rmult_le_compat_l.
  - rewrite !Rabs_mult, (Rabs_pos_eq (mass b)) by done.
    rewrite (Rabs_pos_eq (/ _)) by lra. rewrite Rmult_assoc.
    by apply Rmult_le_compat_l.
Qed.

Lemma total_mass_app (l1 l2 : list Body) :
  total_mass (l1 ++ l2) = total_mass l1 + total_mass l2.
Proof.
  unfold total_mass. induction l1 as [|b l1 IH]; cbn; [lra|].
  unfold total_mass in IH. cbn in IH. rewrite IH. lra.
Qed.

Lemma total_mass_nonneg (l : list Body) :
  Forall (fun b => 0 <= mass b) l -> 0 <= total_mass l.
Proof.
  unfold total_mass. induction 1 as [|b l Hb _ IH]; cbn; [lra|].
  cbn in IH. lra.
Qed.

Lemma total_mass_others (i : nat) (l : list Body) :
  Forall (fun b => 0 <= mass b) l -> total_mass (others i l) <= total_mass l.
Proof.
  intros Hall. unfold others.
  destruct (l !! i) as [b|] eqn:Hb.
  - rewrite <- (take_drop_middle l i b Hb) at 3.
    rewrite !total_mass_app.
    change (total_mass (b :: drop (S i) l))
      with (mass b + total_mass (drop (S i) l)).
    pose proof (proj1 (Forall_lookup _ l) Hall i b Hb). cbn in *. lra.
  - apply lookup_ge_None in Hb.
    rewrite take_ge, drop_ge, app_nil_r by lia. lra.
Qed.

Lemma vsum_pull_bounded (p : vec) (l : list Body) :
  Forall (fun b => 0 <= mass b) l ->
  Rabs (vsum (pull p <$> l)).1 <= total_mass l * / (2 * SOFTENING ^ 2)
  /\ Rabs (vsum (pull p <$> l)).2 <= total_mass l * / (2 * SOFTENING ^ 2).
Proof.
  induction 1 as [|b l Hb _ [IH1 IH2]].
  - unfold total_mass. cbn. rewrite Rabs_R0. lra.
  - cbn [fmap list_fmap]. rewrite vsum_cons.
    change (total_mass (b :: l)) with (mass b + total_mass l).
    destruct (pull_bounded p b Hb) as [H1 H2].
    unfold vadd. cbn [fst snd].
    pose proof (Rabs_triang (pull p b).1 (vsum (pull p <$> l)).1).
    pose proof (Rabs_triang (pull p b).2 (vsum (pull p <$> l)).2).
    split; lra.
Qed.

(** X6.  Softening bounds the force: for bodies of non-negative mass, each
    component of every acceleration [accel] returns is at most
    [G·Σ m_j / (2·ε²)] in absolute value, however close the bodies are. *)
Theorem accel_is_bounded (bodies : list Body) :
  Forall (fun b => 0 <= mass b) bodies ->
  Forall (fun a : vec =>
            Rabs a.1 <= G * total_mass bodies / (2 * SOFTENING ^ 2)
            /\ Rabs a.2 <= G * total_mass bodies / (2 * SOFTENING ^ 2))
         (accel (position <$> bodies) (mass <$> bodies)).
Proof.
  intros Hall. rewrite accel_gravity. apply Forall_lookup. intros i a.
  rewrite list_lookup_imap. destruct (bodies !! i) as [b|] eqn:Hb; [|done].
  intros [= <-]. unfold gravity.
  assert (Ho : Forall (fun b => 0 <= mass b) (others i bodies)).
  { unfold others. apply Forall_app. split.
    - by apply Forall_take. - by apply Forall_drop. }
  destruct (vsum_pull_bounded (position b) (others i bodies) Ho) as [H1 H2].
  pose proof (total_mass_others i bodies Hall) as Hle.
  assert (HG : 0 < G) by (unfold G; lra).
  assert (He : 0 < / (2 * SOFTENING ^ 2)).
  { apply Rinv_0_lt_compat. unfold SOFTENING. lra. }
  unfold smulv. cbn [fst snd]. unfold Rdiv.
  rewrite !Rabs_mult, (Rabs_pos_eq G) by lra.
  split; rewrite Rmult_assoc; apply Rmult_le_compat_l; try lra.
  - eapply Rle_trans; [exact H1|]. apply Rmult_le_compat_r; lra.
  - eapply Rle_trans; [exact H2|]. apply Rmult_le_compat_r; lra.
Qed.

Lemma accel_is_bounded_witness :
  Forall (fun a : vec =>
            Rabs a.1 <= G * total_mass [planet_a; planet_b] / (2 * SOFTENING ^ 2)
            /\ Rabs a.2 <= G * total_mass [planet_a; planet_b] / (2 * SOFTENING ^ 2))
         (accel (position <$> [planet_a; planet_b]) (mass <$> [planet_a; planet_b])).
Proof.
  apply (accel_is_bounded [planet_a; planet_b]).
  repeat constructor; cbn; lra.
Defined.

(** ** What a collision pass conserves *)

Lemma pass_in_range (bodies : list Body) (i : nat) (consumed : gset nat)
    (evs : list event) :
  pass bodies i consumed evs -> Forall (event_in_range bodies) evs.
Proof.
  induction 1 as [i c Hge | i c evs Hlt Hin _ IH | i j c evs Hlt Hnin Hfp _ IH
                  | i c evs Hlt Hnin Hno _ IH]; [constructor | done | |].
  - constructor; [|done]. destruct Hfp as (Hj & _).
    repeat constructor; apply lookup_lt_is_Some_2; lia.
  - constructor; [|done]. repeat constructor. by apply lookup_lt_is_Some_2.
Qed.

Lemma quantity_at_seq (mu : Body -> vec) (bodies : list Body) :
  quantity_at mu bodies <$> seq 0 (length bodies) = mu <$> bodies.
Proof.
  apply list_eq; intros k. rewrite !list_lookup_fmap.
  destruct (decide (k < length bodies)%nat) as [Hlt|Hge].
  - rewrite lookup_seq_lt by done. cbn.
    destruct (lookup_lt_is_Some_2 bodies k Hlt) as [b Hb].
    unfold quantity_at. by rewrite Hb.
  - rewrite lookup_seq_ge by lia. by rewrite lookup_ge_None_2 by lia.
Qed.

Lemma quantity_at_lookup (mu : Body -> vec) (bodies : list Body) (k : nat)
    (b : Body) :
  bodies !! k = Some b -> quantity_at mu bodies k = mu b.
Proof. intros H. unfold quantity_at. by rewrite H. Qed.

(** A quantity that adds up over every merge adds up over the pass. *)
Lemma realise_quantity {Src} (mu : Body -> vec) (bodies : list Body)
    (evs : list event) (w : World Src) :
  (forall bi bj (w' : World Src), bi ∈ bodies -> bj ∈ bodies ->
     mu (hc_merged bi bj w').1 = vadd (mu bi) (mu bj)) ->
  Forall (event_in_range bodies) evs ->
  vsum (mu <$> (realise bodies evs w).1.1)
  = vsum (quantity_at mu bodies <$> concat (event_indices <$> evs)).
Proof.
  intros Hadd Hrange. revert w.
  induction Hrange as [|e evs He _ IH]; intros w; [done|].
  destruct e as [i|i j]; cbn [realise fmap list_fmap concat event_indices app].
  - apply Forall_cons in He as [[bi Hi] _]. rewrite Hi. sim_unfold.
    cbn [fst snd fmap list_fmap]. rewrite !vsum_cons, IH.
    by rewrite (quantity_at_lookup mu bodies i bi Hi).
  - apply Forall_cons in He as [[bi Hi] He].
    apply Forall_cons in He as [[bj Hj] _]. rewrite Hi, Hj. sim_unfold.
    cbn [fst snd fmap list_fmap]. rewrite !vsum_cons, IH.
    rewrite Hadd by (eapply list_elem_of_lookup_2; eassumption).
    rewrite (quantity_at_lookup mu bodies i bi Hi).
    rewrite (quantity_at_lookup mu bodies j bj Hj).
    by rewrite vadd_assoc.
Qed.

Lemma handle_collisions_quantity {Src} (mu : Body -> vec) (bodies : list Body)
    (w : World Src) :
  (forall bi bj (w' : World Src), bi ∈ bodies -> bj ∈ bodies ->
     mu (hc_merged bi bj w').1 = vadd (mu bi) (mu bj)) ->
  vsum (mu <$> (handle_collisions bodies w).1.1) = vsum (mu <$> bodies).
Proof.
  intros Hadd.
  destruct (handle_collisions_realise bodies w) as (evs & Hpass & ->).
  rewrite (realise_quantity mu bodies evs w Hadd (pass_in_range _ _ _ _ Hpass)).
  rewrite <- quantity_at_seq. apply vsum_perm, fmap_Permutation.
  rewrite (pass_partitions bodies 0 ∅ evs Hpass), Nat.sub_0_r.
  by rewrite (filter_unconsumed_none _ ∅ eq_refl).
Qed.

Lemma hc_merged_physics {Src} (bi bj : Body) (w : World Src) :
  mass (hc_merged bi bj w).1 = mass bi + mass bj
  /\ position (hc_merged bi bj w).1 = position (merge_bodies bi bj w).1
  /\ velocity (hc_merged bi bj w).1 = velocity (merge_bodies bi bj w).1
  /\ radius (hc_merged bi bj w).1 = radius (merge_bodies bi bj w).1.
Proof.
  unfold hc_merged.
  by destruct ((body_type bi =? "blackhole")%string
               || (body_type bj =? "blackhole")%string).
Qed.

Lemma total_mass_as_vsum (l : list Body) :
  vsum ((fun b => (mass b, 0)) <$> l) = (total_mass l, 0).
Proof.
  unfold total_mass. induction l as [|b l IH]; [done|].
  cbn [fmap list_fmap foldr]. rewrite vsum_cons, IH.
  unfold vadd. cbn. f_equal. lra.
Qed.

(** X7.  A collision pass conserves the total mass of the body set. *)
Theorem collisions_conserve_mass {Src} (bodies : list Body) (w : World Src) :
  total_mass (handle_collisions bodies w).1.1 = total_mass bodies.
Proof.
  pose proof (handle_collisions_quantity (fun b => (mass b, 0)) bodies w) as H.
  rewrite !total_mass_as_vsum in H.
  assert (Heq : (total_mass (handle_collisions bodies w).1.1, 0)
                = (total_mass bodies, 0)).
  { apply H. intros bi bj w' _ _.
    destruct (hc_merged_physics bi bj w') as [-> _].
    unfold vadd. cbn. f_equal. lra. }
  by injection Heq.
Qed.

(** X8.  For bodies of positive mass a collision pass conserves the total
    momentum [Σ m·v] and the mass moment [Σ m·p], hence the centre of
    mass. *)
Theorem collisions_conserve_momentum {Src} (bodies : list Body) (w : World Src) :
  Forall (fun b => 0 < mass b) bodies ->
  total_momentum (handle_collisions bodies w).1.1 = total_momentum bodies
  /\ total_mass_moment (handle_collisions bodies w).1.1
     = total_mass_moment bodies.
Proof.
  intros Hpos.
  pose proof (proj1 (Forall_forall _ bodies) Hpos) as Hin.
  split; apply handle_collisions_quantity; intros bi bj w' Hi Hj;
    pose proof (Hin bi Hi); pose proof (Hin bj Hj);
    destruct (hc_merged_physics bi bj w') as (Hm & Hp & Hv & _);
    destruct (merge_bodies_fields bi bj w') as (_ & _ & Hp' & Hv' & _);
    unfold momentum, mass_moment; rewrite Hm, ?Hp, ?Hv, ?Hp', ?Hv';
    unfold vdivs, vadd, vmuls, smulv; cbn [fst snd]; f_equal; field; lra.
Qed.

Lemma collisions_conserve_momentum_witness :
  total_momentum (handle_collisions [planet_a; planet_b] sample_world).1.1
  = total_momentum [planet_a; planet_b]
  /\ total_mass_moment (handle_collisions [planet_a; planet_b] sample_world).1.1
     = total_mass_moment [planet_a; planet_b].
Proof.
  apply (collisions_conserve_momentum [planet_a; planet_b] sample_world).
  repeat constructor; cbn; lra.
Defined.

(** ** What a collision pass keeps and drops *)

Lemma realise_count {Src} (bodies : list Body) (evs : list event) (w : World Src) :
  Forall (event_in_range bodies) evs ->
  (length (realise bodies evs w).1.1 + length (realise bodies evs w).1.2
   = length (concat (event_indices <$> evs)))%nat.
Proof.
  intros Hrange. revert w.
  induction Hrange as [|e evs He _ IH]; intros w; [done|].
  destruct e as [i|i j]; cbn [realise fmap list_fmap concat event_indices app].
  - apply Forall_cons in He as [[bi Hi] _]. rewrite Hi. sim_unfold.
    cbn [fst snd length]. pose proof (IH w). lia.
  - apply Forall_cons in He as [[bi Hi] He].
    apply Forall_cons in He as [[bj Hj] _]. rewrite Hi, Hj. sim_unfold.
    cbn [fst snd length]. pose proof (IH (hc_merged bi bj w).2). lia.
Qed.

(** X9.  Every merge of a collision pass takes one body out of the set and
    gives one flash hint: the bodies returned and the hints together are as
    many as the bodies given. *)
Theorem collisions_count {Src} (bodies : list Body) (w : World Src) :
  (length (handle_collisions bodies w).1.1
   + length (handle_collisions bodies w).1.2 = length bodies)%nat.
Proof.
  destruct (handle_collisions_realise bodies w) as (evs & Hpass & ->).
  rewrite (realise_count bodies evs w (pass_in_range _ _ _ _ Hpass)).
  rewrite (pass_partitions bodies 0 ∅ evs Hpass), Nat.sub_0_r.
  by rewrite (filter_unconsumed_none _ ∅ eq_refl), length_seq.
Qed.

Lemma overlapping_sym (a b : Body) : overlapping a b -> overlapping b a.
Proof.
  unfold overlapping, vnorm. intros H.
  replace (vdot (vsub (position b) (position a)) (vsub (position b) (position a)))
    with (vdot (vsub (position a) (position b)) (vsub (position a) (position b)))
    by (unfold vdot, vsub; cbn; ring).
  lra.
Qed.

Lemma overlap_free_no_partner (bodies : list Body) (i : nat) :
  overlap_free bodies -> no_partner bodies ∅ i.
Proof.
  intros Hfree j Hj _ (bi & bj & Hi & Hbj & Ho).
  apply (Hfree i j bi bj); [lia | done | done | done].
Qed.

Lemma pass_overlap_free (bodies : list Body) (n i : nat) :
  overlap_free bodies -> (i + n = length bodies)%nat ->
  pass bodies i ∅ (Carried <$> seq i n).
Proof.
  intros Hfree. revert i. induction n as [|n IH]; intros i Hlen.
  - apply pass_end. lia.
  - cbn [seq fmap list_fmap]. apply pass_carry; [lia | | |].
    + apply not_elem_of_empty.
    + by apply overlap_free_no_partner.
    + apply IH. lia.
Qed.

Lemma realise_all_carried {Src} (bodies : list Body) (n i : nat) (w : World Src) :
  (i + n <= length bodies)%nat ->
  realise bodies (Carried <$> seq i n) w = ((take n (drop i bodies), []), w).
Proof.
  revert i. induction n as [|n IH]; intros i Hlen; [done|].
  cbn [seq fmap list_fmap realise].
  destruct (lookup_lt_is_Some_2 bodies i) as [b Hb]; [lia|].
  rewrite Hb. sim_unfold. rewrite IH by lia. cbn [fst snd].
  by rewrite (drop_S bodies b i Hb).
Qed.

Lemma realise_no_flash {Src} (bodies : list Body) (evs : list event)
    (w : World Src) :
  Forall (event_in_range bodies) evs -> (realise bodies evs w).1.2 = [] ->
  forall i j, Merged i j ∉ evs.
Proof.
  intros Hrange. revert w.
  induction Hrange as [|e evs He _ IH]; intros w Hnil i j Hel.
  - by apply elem_of_nil in Hel.
  - destruct e as [a|a b]; cbn [realise] in Hnil.
    + apply Forall_cons in He as [[ba Ha] _]. rewrite Ha in Hnil.
      sim_unfold. cbn [fst snd] in Hnil.
      apply elem_of_cons in Hel as [Heq|Hel]; [done|].
      by apply (IH w Hnil i j).
    + apply Forall_cons in He as [[ba Ha] He].
      apply Forall_cons in He as [[bb Hb] _]. rewrite Ha, Hb in Hnil.
      sim_unfold. cbn [fst snd] in Hnil. done.
Qed.

Lemma pass_unmerged (bodies : list Body) (i : nat) (consumed : gset nat)
    (evs : list event) :
  pass bodies i consumed evs -> consumed = ∅ ->
  (forall a b, Merged a b ∉ evs) ->
  forall k, (i <= k)%nat -> no_partner bodies ∅ k.
Proof.
  induction 1 as [i c Hge | i c evs Hlt Hin _ IH | i j c evs Hlt Hnin Hfp _ IH
                  | i c evs Hlt Hnin Hno _ IH]; intros -> Hnone k Hk.
  - intros j Hj. lia.
  - by apply not_elem_of_empty in Hin.
  - destruct (Hnone i j). apply list_elem_of_here.
  - destruct (decide (k = i)) as [->|Hne]; [done|].
    apply IH; [done | | lia].
    intros a b Hel. apply (Hnone a b). by apply elem_of_cons; right.
Qed.

(** X10.  A collision pass gives back the list it was given, with no hint
    and no new object, when no two bodies overlap; and it gives a hint as
    soon as two bodies overlap. *)
Theorem collisions_only_on_overlap {Src} (bodies : list Body) (w : World Src) :
  (overlap_free bodies -> handle_collisions bodies w = ((bodies, []), w))
  /\ ((handle_collisions bodies w).1.2 = [] -> overlap_free bodies).
Proof.
  split.
  - intros Hfree.
    rewrite (handle_collisions_of_pass bodies w
               (Carried <$> seq 0 (length bodies)))
      by (by apply pass_overlap_free).
    rewrite realise_all_carried by lia.
    by rewrite drop_0, firstn_all.
  - intros Hnil.
    destruct (handle_collisions_realise bodies w) as (evs & Hpass & Hrun).
    rewrite Hrun in Hnil.
    pose proof (realise_no_flash bodies evs w (pass_in_range _ _ _ _ Hpass) Hnil)
      as Hnone.
    intros i j bi bj Hij Hi Hj Ho.
    apply (pass_unmerged bodies 0 ∅ evs Hpass eq_refl Hnone i (Nat.le_0_l i) j).
    + split; [done|]. by apply lookup_lt_is_Some_1.
    + apply not_elem_of_empty.
    + by exists bi, bj.
Qed.

Lemma planets_apart_overlap_free :
  overlap_free [planet_a; set_state planet_b (1, 0) (0, 0)].
Proof.
  intros i j bi bj Hij Hi Hj.
  destruct i as [|[|i]], j as [|[|j]]; try lia; try done.
  injection Hi as <-. injection Hj as <-.
  unfold overlapping, vnorm, vdot, vsub. cbn.
  replace ((0 - 1) * (0 - 1) + (0 - 0) * (0 - 0)) with 1 by ring.
  rewrite sqrt_1. lra.
Qed.

Lemma collisions_only_on_overlap_witness :
  handle_collisions [planet_a; set_state planet_b (1, 0) (0, 0)] sample_world
  = (([planet_a; set_state planet_b (1, 0) (0, 0)], []), sample_world)
  /\ ((handle_collisions [planet_a; planet_b] sample_world).1.2 = [] -> False).
Proof.
  destruct (collisions_only_on_overlap
              [planet_a; set_state planet_b (1, 0) (0, 0)] sample_world)
    as [Hkeep _].
  destruct (collisions_only_on_overlap [planet_a; planet_b] sample_world)
    as [_ Hfree].
  split; [apply Hkeep, planets_apart_overlap_free|].
  intros Hnil.
  apply (Hfree Hnil 0%nat 1%nat planet_a planet_b); [lia | done | done |].
  apply overlapping_planets.
Defined.

Lemma elem_of_concat {A} (x : A) (ls : list (list A)) :
  x ∈ concat ls -> exists l, x ∈ l /\ l ∈ ls.
Proof.
  induction ls as [|l ls IH]; cbn [concat]; intros Hx.
  - by apply elem_of_nil in Hx.
  - apply elem_of_app in Hx as [Hx|Hx].
    + exists l. split; [done | apply list_elem_of_here].
    + destruct (IH Hx) as (l' & Hl' & Hin). exists l'.
      split; [done | by apply elem_of_cons; right].
Qed.

Lemma realise_carried_elem {Src} (bodies : list Body) (evs : list event)
    (w : World Src) (k : nat) (b : Body) :
  Carried k ∈ evs -> bodies !! k = Some b -> b ∈ (realise bodies evs w).1.1.
Proof.
  intros Hel Hb. revert w.
  induction evs as [|e evs IH]; intros w; [by apply elem_of_nil in Hel|].
  apply elem_of_cons in Hel as [<-|Hel].
  - cbn [realise]. rewrite Hb. sim_unfold. apply list_elem_of_here.
  - destruct e as [i|i j]; cbn [realise].
    + destruct (bodies !! i); [|by apply IH].
      sim_unfold. cbn [fst snd]. apply elem_of_cons. right. by apply IH.
    + destruct (bodies !! i); [|by apply IH].
      destruct (bodies !! j); [|by apply IH].
      sim_unfold. cbn [fst snd]. apply elem_of_cons. right. by apply IH.
Qed.

(** X11.  A body that overlaps no other body of the list comes out of a
    collision pass as it went in, whatever merges happen around it. *)
Theorem isolated_body_survives {Src} (bodies : list Body) (w : World Src)
    (k : nat) (b : Body) :
  bodies !! k = Some b ->
  (forall j bj, j <> k -> bodies !! j = Some bj -> ~ overlapping b bj) ->
  b ∈ (handle_collisions bodies w).1.1.
Proof.
  intros Hb Hiso.
  destruct (handle_collisions_realise bodies w) as (evs & Hpass & ->).
  assert (Hk : k ∈ concat (event_indices <$> evs)).
  { rewrite (pass_partitions bodies 0 ∅ evs Hpass), Nat.sub_0_r.
    rewrite (filter_unconsumed_none _ ∅ eq_refl). apply elem_of_seq.
    apply lookup_lt_Some in Hb. lia. }
  apply elem_of_concat in Hk as (ks & Hk & Hks).
  apply list_elem_of_fmap in Hks as (e & -> & He).
  destruct e as [i|i j]; cbn in Hk.
  - apply list_elem_of_singleton in Hk as ->.
    by apply (realise_carried_elem bodies evs w i b).
  - exfalso.
    destruct (pass_merged bodies 0 ∅ evs i j Hpass He)
      as [Hij (bi & bj & Hi & Hj & Ho)].
    apply elem_of_cons in Hk as [->|Hk].
    + assert (bi = b) as -> by congruence.
      apply (Hiso j bj); [lia | done | done].
    + apply list_elem_of_singleton in Hk as ->.
      assert (bj = b) as -> by congruence.
      apply (Hiso i bi); [lia | done | by apply overlapping_sym].
Qed.

Lemma isolated_body_survives_witness :
  set_state planet_b (1, 0) (0, 0)
  ∈ (handle_collisions [planet_a; set_state planet_b (1, 0) (0, 0)]
       sample_world).1.1.
Proof.
  apply (isolated_body_survives _ sample_world 1); [done|].
  intros j bj Hj Hbj. destruct j as [|[|j]]; try done.
  injection Hbj as <-. intros Ho. apply overlapping_sym in Ho.
  apply (planets_apart_overlap_free 0%nat 1%nat planet_a
           (set_state planet_b (1, 0) (0, 0))); [lia | done | done | done].
Defined.

(** ** More on [merge_bodies] *)

(** X12.  For radii that are not negative the merged body is at least as
    large as the larger input and no larger than the two radii together. *)
Theorem merged_radius_bounds {Src} (A B : Body) (w : World Src) :
  0 <= radius A -> 0 <= radius B ->
  Rmax (radius A) (radius B) <= radius (merge_bodies A B w).1
  /\ radius (merge_bodies A B w).1 <= radius A + radius B.
Proof.
  intros HA HB.
  destruct (merge_bodies_fields A B w) as (_ & _ & _ & _ & ->).
  set (a := radius A) in *. set (b := radius B) in *.
  assert (Ha : a <= sqrt (a ^ 2 + b ^ 2)).
  { rewrite <- (sqrt_pow2 a) at 1 by done. apply sqrt_le_1_alt. nra. }
  assert (Hb : b <= sqrt (a ^ 2 + b ^ 2)).
  { rewrite <- (sqrt_pow2 b) at 1 by done. apply sqrt_le_1_alt. nra. }
  split.
  - by apply Rmax_lub.
  - rewrite <- (sqrt_pow2 (a + b)) by lra. apply sqrt_le_1_alt. nra.
Qed.

Lemma merged_radius_bounds_witness :
  Rmax (radius planet_a) (radius planet_b)
  <= radius (merge_bodies planet_a planet_b sample_world).1
  /\ radius (merge_bodies planet_a planet_b sample_world).1
     <= radius planet_a + radius planet_b.
Proof.
  apply (merged_radius_bounds planet_a planet_b sample_world); cbn; lra.
Defined.

(** X13.  Merging three bodies of positive mass pairwise gives the same
    mass, position, velocity and radius whichever pair is merged first. *)
Theorem merge_order_independent {Src} (A B C : Body) (w1 w2 w3 w4 : World Src) :
  0 < mass A -> 0 < mass B -> 0 < mass C ->
  let L := (merge_bodies (merge_bodies A B w1).1 C w2).1 in
  let R := (merge_bodies A (merge_bodies B C w3).1 w4).1 in
  mass L = mass R /\ position L = position R
  /\ velocity L = velocity R /\ radius L = radius R.
Proof.
  intros HA HB HC L R. subst L R.
  destruct (merge_bodies_fields (merge_bodies A B w1).1 C w2)
    as (_ & -> & -> & -> & ->).
  destruct (merge_bodies_fields A (merge_bodies B C w3).1 w4)
    as (_ & -> & -> & -> & ->).
  destruct (merge_bodies_fields A B w1) as (_ & -> & -> & -> & ->).
  destruct (merge_bodies_fields B C w3) as (_ & -> & -> & -> & ->).
  split; [lra|].
  split; [unfold vdivs, vadd, vmuls; cbn [fst snd]; f_equal; field; lra|].
  split; [unfold vdivs, vadd, vmuls; cbn [fst snd]; f_equal; field; lra|].
  f_equal.
  replace (sqrt (radius A ^ 2 + radius B ^ 2) ^ 2)
    with (radius A ^ 2 + radius B ^ 2).
  2:{ rewrite pow2_sqrt; [reflexivity|].
      pose proof (pow2_ge_0 (radius A)). pose proof (pow2_ge_0 (radius B)). lra. }
  replace (sqrt (radius B ^ 2 + radius C ^ 2) ^ 2)
    with (radius B ^ 2 + radius C ^ 2).
  2:{ rewrite pow2_sqrt; [reflexivity|].
      pose proof (pow2_ge_0 (radius B)). pose proof (pow2_ge_0 (radius C)). lra. }
  ring.
Qed.

Lemma merge_order_independent_witness :
  let L := (merge_bodies (merge_bodies planet_a planet_b sample_world).1
              heavy_planet sample_world).1 in
  let R := (merge_bodies planet_a
              (merge_bodies planet_b heavy_planet sample_world).1
              sample_world).1 in
  mass L = mass R /\ position L = position R
  /\ velocity L = velocity R /\ radius L = radius R.
Proof.
  apply (merge_order_independent planet_a planet_b heavy_planet
           sample_world sample_world sample_world sample_world); cbn; lra.
Defined.

(** ** The mass an explosion returns *)

Lemma fragments_mass_bounds (star : Body) (l : list Body) :
  Forall (is_fragment_of star) l ->
  INR (length l) * (5 / 100) <= total_mass l <= INR (length l) * (15 / 10).
Proof.
  induction 1 as [|f l Hf _ IH].
  - unfold total_mass. cbn. lra.
  - change (total_mass (f :: l)) with (mass f + total_mass l).
    rewrite length_cons, S_INR. destruct Hf as (Hm & _). lra.
Qed.

(** X14.  For a star of mass [M >= 20] the bodies an explosion returns weigh
    between [0.2·M + 0.3] and [0.4·M + 16.5] together, whatever the draws;
    so a star heavier than 27.5 always gives back less mass than it had. *)
Theorem supernova_mass_bounds {Src} `{RandomSource Src} (bodies : list Body)
    (star : Body) (w : World Src) :
  MASS_THRESHOLD <= mass star ->
  2 / 10 * mass star + 3 / 10
  <= total_mass (trigger_supernova bodies star w).1.2
  <= 4 / 10 * mass star + 165 / 10
  /\ (275 / 10 < mass star ->
      total_mass (trigger_supernova bodies star w).1.2 < mass star).
Proof.
  intros Hge.
  destruct (trigger_supernova_run bodies star w)
    as (fragments & remnant & s & -> & Hlen & Hfr & Hrem); [lra|].
  cbn [fst snd]. rewrite total_mass_app.
  change (total_mass [remnant]) with (mass remnant + 0).
  pose proof (fragments_mass_bounds star fragments Hfr) as Hb.
  pose proof (randint_range 6 12 (rng w) eq_refl) as Hn.
  assert (H6 : (6 <= length fragments)%nat) by lia.
  assert (H11 : (length fragments <= 11)%nat) by lia.
  apply le_INR in H6, H11.
  replace (INR 6) with 6 in H6 by (cbn; lra).
  replace (INR 11) with 11 in H11 by (cbn; lra).
  unfold MASS_THRESHOLD in Hge.
  destruct Hrem as (_ & _ & Hrem).
  destruct (Rlt_dec (rand s).1 (75 / 100)); destruct Hrem as (_ & -> & _);
    (split; [lra | intros Hbig; lra]).
Qed.

Lemma supernova_mass_bounds_witness :
  2 / 10 * mass big_star + 3 / 10
  <= total_mass (trigger_supernova [big_star] big_star sample_world).1.2
  <= 4 / 10 * mass big_star + 165 / 10.
Proof.
  apply (supernova_mass_bounds [big_star] big_star sample_world).
  unfold MASS_THRESHOLD. cbn. lra.
Defined.

(** ** Pan and zoom *)

Lemma screen_to_world (s c o x w : R) :
  s <> 0 -> w * s + c + o * 1 = x -> w = (x - c - o) / s.
Proof.
  intros Hs Hx. apply (Rmult_eq_reg_r s); [|done].
  unfold Rdiv. rewrite Rmult_assoc, Rinv_l by done. lra.
Qed.

Lemma on_zoom_fixes_cursor (cam : Camera) (factor : R) (x y : Z) :
  scale cam <> 0 ->
  exists cam',
    on_zoom cam factor x y = Some cam'
    /\ scale cam' = scale cam * factor
    /\ pan cam' = pan cam
    /\ forall wx wy,
         world_to_screen cam wx wy 1 = (IZR x, IZR y) ->
         world_to_screen cam' wx wy 1 = (IZR x, IZR y).
Proof.
  intros Hs. unfold on_zoom.
  destruct (Req_dec_T (scale cam) 0) as [Hz|_]; [done|].
  eexists. split; [reflexivity|]. cbn [scale pan]. split; [done|]. split; [done|].
  intros wx wy. unfold world_to_screen. cbn [scale offset_x offset_y].
  intros [= Hx Hy].
  assert (Hwx : wx = (IZR x - IZR CENTER_X - offset_x cam) / scale cam)
    by by apply screen_to_world.
  assert (Hwy : wy = (IZR y - IZR CENTER_Y - offset_y cam) / scale cam)
    by by apply screen_to_world.
  rewrite <- Hwx, <- Hwy. f_equal; ring.
Qed.

(** X15.  Zooming keeps the world point under the mouse pointer under the
    pointer: for a scale that is not zero, either zoom handler multiplies the
    scale by 1.1 or 0.9 and shifts the offset so that the point shown at
    the pointer is still shown there. *)
Theorem zoom_fixes_cursor (cam : Camera) (k x y : Z) :
  scale cam <> 0 ->
  (exists cam',
     on_zoom_windows cam k x y = Some cam'
     /\ scale cam' = scale cam * (if (0 <? k)%Z then 11 / 10 else 9 / 10)
     /\ forall wx wy,
          world_to_screen cam wx wy 1 = (IZR x, IZR y) ->
          world_to_screen cam' wx wy 1 = (IZR x, IZR y))
  /\ (exists cam',
        on_zoom_linux cam k x y = Some cam'
        /\ scale cam' = scale cam * (if (k =? 4)%Z then 11 / 10 else 9 / 10)
        /\ forall wx wy,
             world_to_screen cam wx wy 1 = (IZR x, IZR y) ->
             world_to_screen cam' wx wy 1 = (IZR x, IZR y)).
Proof.
  intros Hs. split.
  - destruct (on_zoom_fixes_cursor cam
                (if (0 <? k)%Z then 11 / 10 else 9 / 10) x y Hs)
      as (cam' & Hrun & Hscale & _ & Hfix).
    by exists cam'.
  - destruct (on_zoom_fixes_cursor cam
                (if (k =? 4)%Z then 11 / 10 else 9 / 10) x y Hs)
      as (cam' & Hrun & Hscale & _ & Hfix).
    by exists cam'.
Qed.

Lemma zoom_fixes_cursor_witness :
  (exists cam',
     on_zoom_windows initial_camera 120 600 400 = Some cam'
     /\ scale cam' = scale initial_camera * (11 / 10)
     /\ world_to_screen cam' (1 / 2) (1 / 2) 1 = (600, 400))
  /\ (exists cam',
        on_zoom_linux initial_camera 5 600 400 = Some cam'
        /\ scale cam' = scale initial_camera * (9 / 10)
        /\ world_to_screen cam' (1 / 2) (1 / 2) 1 = (600, 400)).
Proof.
  assert (Hs : scale initial_camera <> 0) by (cbn; lra).
  assert (Hw : world_to_screen initial_camera (1 / 2) (1 / 2) 1
               = (IZR 600, IZR 400)).
  { unfold world_to_screen.
    change (IZR CENTER_X) with 550. change (IZR CENTER_Y) with 350.
    cbn [scale offset_x offset_y initial_camera]. f_equal; lra. }
  destruct (zoom_fixes_cursor initial_camera 120 600 400 Hs)
    as [(c1 & H1 & Hs1 & Hf1) _].
  destruct (zoom_fixes_cursor initial_camera 5 600 400 Hs)
    as [_ (c2 & H2 & Hs2 & Hf2)].
  split; [exists c1 | exists c2]; (split; [done|]); (split; [done|]); auto.
Defined.

(** X16.  Dragging moves the picture with the pointer: after a press at
    [(x0, y0)], a move to [(x, y)] places every world point, at parallax
    [p], [p·(x − x0, y − y0)] away from where it was at the press, whatever
    moves came in between; a move with no press before it changes
    nothing. *)
Theorem pan_follows_pointer (cam : Camera) (x0 y0 x1 y1 x y : Z)
    (wx wy p : R) :
  let started := on_pan_start cam x0 y0 in
  let dragged := on_pan_move (on_pan_move started x1 y1) x y in
  dragged = on_pan_move started x y
  /\ world_to_screen dragged wx wy p
     = ((world_to_screen cam wx wy p).1 + p * IZR (x - x0),
        (world_to_screen cam wx wy p).2 + p * IZR (y - y0))
  /\ scale dragged = scale cam
  /\ (pan cam = None -> on_pan_move cam x y = cam).
Proof.
  intros started dragged. subst started dragged.
  unfold on_pan_move, on_pan_start, world_to_screen. cbn.
  repeat split.
  - f_equal; ring.
  - intros Hn. by rewrite Hn.
Qed.

(** ** The target of the supernova button *)

Lemma max_by_mass_cons (best x : Body) (rest : list Body) :
  max_by_mass best (x :: rest)
  = max_by_mass (if Rgt_dec (mass x) (mass best) then x else best) rest.
Proof. reflexivity. Qed.

Lemma max_by_mass_first_heaviest (best : Body) (rest l1 l2 : list Body) :
  (forall s, s ∈ l1 -> mass s < mass best) ->
  (forall s, s ∈ l2 -> mass s <= mass best) ->
  exists l1' l2',
    l1 ++ best :: l2 ++ rest = l1' ++ max_by_mass best rest :: l2'
    /\ (forall s, s ∈ l1' -> mass s < mass (max_by_mass best rest))
    /\ (forall s, s ∈ l2' -> mass s <= mass (max_by_mass best rest)).
Proof.
  revert best l1 l2. induction rest as [|x rest IH]; intros best l1 l2 H1 H2.
  - exists l1, l2. by rewrite app_nil_r.
  - rewrite max_by_mass_cons.
    destruct (Rgt_dec (mass x) (mass best)) as [Hgt|Hle].
    + destruct (IH x (l1 ++ best :: l2) []) as (l1' & l2' & Heq & Hl & Hr).
      * intros s Hs. apply elem_of_app in Hs as [Hs|Hs].
        -- pose proof (H1 s Hs). lra.
        -- apply elem_of_cons in Hs as [->|Hs]; [lra|].
           pose proof (H2 s Hs). lra.
      * intros s Hs. by apply elem_of_nil in Hs.
      * exists l1', l2'. split; [|done].
        rewrite <- Heq. by rewrite <- !app_assoc.
    + destruct (IH best l1 (l2 ++ [x])) as (l1' & l2' & Heq & Hl & Hr).
      * done.
      * intros s Hs. apply elem_of_app in Hs as [Hs|Hs]; [by apply H2|].
        apply list_elem_of_singleton in Hs as ->. lra.
      * exists l1', l2'. split; [|done].
        rewrite <- Heq. by rewrite <- !app_assoc.
Qed.

(** X17.  The supernova button picks the heaviest star of the list, the
    first one among equally heavy stars, and sets its countdown to 18
    without touching another; it checks no mass threshold, and does nothing
    when the list holds no star. *)
Theorem button_picks_heaviest_star (bodies : list Body)
    (supernova_flash : gmap nat Z) :
  match supernova_target bodies with
  | None =>
    Forall (fun b => body_type b <> "star"%string) bodies
    /\ trigger_supernova_button bodies supernova_flash = supernova_flash
  | Some target =>
    target ∈ bodies /\ body_type target = "star"%string
    /\ (forall s, s ∈ bodies -> body_type s = "star"%string ->
          mass s <= mass target)
    /\ (exists before after,
          filter (fun b => body_type b = "star"%string) bodies
          = before ++ target :: after
          /\ forall s, s ∈ before -> mass s < mass target)
    /\ trigger_supernova_button bodies supernova_flash !! oid target = Some 18%Z
    /\ forall k, k <> oid target ->
         trigger_supernova_button bodies supernova_flash !! k
         = supernova_flash !! k
  end.
Proof.
  unfold trigger_supernova_button, supernova_target.
  destruct (filter (fun b => body_type b = "star"%string) bodies)
    as [|s0 rest] eqn:Hstars.
  - split; [|done]. apply Forall_forall. intros b Hb Hstar.
    assert (Hin : b ∈ filter (fun b => body_type b = "star"%string) bodies)
      by by apply list_elem_of_filter.
    rewrite Hstars in Hin. by apply elem_of_nil in Hin.
  - destruct (max_by_mass_first_heaviest s0 rest [] [])
      as (l1 & l2 & Heq & Hl & Hr);
      [intros s Hs; by apply elem_of_nil in Hs
      |intros s Hs; by apply elem_of_nil in Hs|].
    cbn [app] in Heq.
    set (t := max_by_mass s0 rest) in *.
    assert (Ht : t ∈ filter (fun b => body_type b = "star"%string) bodies).
    { rewrite Hstars, Heq. apply elem_of_app. right. apply list_elem_of_here. }
    apply list_elem_of_filter in Ht as [Hstar Hin].
    split; [done|]. split; [done|]. split.
    { intros s Hs Hsstar.
      assert (Hs' : s ∈ filter (fun b => body_type b = "star"%string) bodies)
        by by apply list_elem_of_filter.
      rewrite Hstars, Heq in Hs'. apply elem_of_app in Hs' as [Hs'|Hs'].
      - pose proof (Hl s Hs'). lra.
      - apply elem_of_cons in Hs' as [->|Hs']; [lra | by apply Hr]. }
    split; [by exists l1, l2|].
    split; [apply lookup_insert_eq | intros k Hk; by apply lookup_insert_ne].
Qed.

(** ** Lensing *)

Lemma lens_ratio (dx dy : R) : Rabs dx / (dx * dx + dy * dy + 1) <= 1 / 2.
Proof.
  assert (Hsq : dx * dx = Rabs dx * Rabs dx).
  { unfold Rabs. destruct (Rcase_abs dx); ring. }
  rewrite Hsq. generalize (Rabs_pos dx). generalize (Rabs dx). intros a Ha.
  pose proof (Rle_0_sqr (a - 1)) as H1. pose proof (Rle_0_sqr dy) as H2.
  unfold Rsqr in H1, H2.
  assert (H3 : 2 * a <= a * a + 1) by nra.
  assert (Hpos : 0 < a * a + dy * dy + 1) by nra.
  apply (Rmult_le_reg_r (a * a + dy * dy + 1)); [done|].
  unfold Rdiv. rewrite Rmult_assoc, Rinv_l by lra. lra.
Qed.

Lemma lens_step_bound (cam : Camera) (rel : R * R) (b : Body) :
  0 <= mass b ->
  Rabs ((lens_step cam rel b).1 - rel.1) <= 9 / 20000 * lens_weight b
  /\ Rabs ((lens_step cam rel b).2 - rel.2) <= 9 / 20000 * lens_weight b.
Proof.
  intros Hm. unfold lens_step, lens_weight.
  destruct (body_type b =? "blackhole")%string.
  2:{ rewrite !Rminus_diag, Rabs_R0. lra. }
  cbv zeta.
  set (dx := rel.1 - _). set (dy := rel.2 - _).
  destruct (Rlt_dec (dx * dx + dy * dy) (450 ^ 2)).
  2:{ rewrite !Rminus_diag, Rabs_R0. lra. }
  cbn [fst snd].
  pose proof (lens_ratio dx dy) as Hx. pose proof (lens_ratio dy dx) as Hy.
  replace (dy * dy + dx * dx + 1) with (dx * dx + dy * dy + 1) in Hy by ring.
  assert (Hd : 0 < / (dx * dx + dy * dy + 1)).
  { apply Rinv_0_lt_compat. pose proof (Rle_0_sqr dx). pose proof (Rle_0_sqr dy).
    unfold Rsqr in *. lra. }
  unfold Rdiv in *.
  split.
  - replace (rel.1 + dx * (9 * / 10000) * ((mass b + 1) * / (dx * dx + dy * dy + 1))
             - rel.1)
      with (9 * / 10000 * (mass b + 1) * (dx * / (dx * dx + dy * dy + 1))) by ring.
    rewrite Rabs_mult, (Rabs_pos_eq (9 * / 10000 * (mass b + 1))) by lra.
    rewrite Rabs_mult, (Rabs_pos_eq (/ _)) by lra.
    assert (0 <= 9 * / 10000 * (mass b + 1)) by lra. nra.
  - replace (rel.2 + dy * (9 * / 10000) * ((mass b + 1) * / (dx * dx + dy * dy + 1))
             - rel.2)
      with (9 * / 10000 * (mass b + 1) * (dy * / (dx * dx + dy * dy + 1))) by ring.
    rewrite Rabs_mult, (Rabs_pos_eq (9 * / 10000 * (mass b + 1))) by lra.
    rewrite Rabs_mult, (Rabs_pos_eq (/ _)) by lra.
    assert (0 <= 9 * / 10000 * (mass b + 1)) by lra. nra.
Qed.

Lemma lens_fold_bound (cam : Camera) (bodies : list Body) (rel : R * R) :
  Forall (fun b => 0 <= mass b) bodies ->
  Rabs ((foldl (lens_step cam) rel bodies).1 - rel.1)
  <= 9 / 20000 * total_lens_weight bodies
  /\ Rabs ((foldl (lens_step cam) rel bodies).2 - rel.2)
     <= 9 / 20000 * total_lens_weight bodies.
Proof.
  intros Hall. revert rel. induction Hall as [|b l Hb _ IH]; intros rel.
  - unfold total_lens_weight. cbn. rewrite !Rminus_diag, Rabs_R0. lra.
  - cbn [foldl].
    change (total_lens_weight (b :: l)) with (lens_weight b + total_lens_weight l).
    destruct (IH (lens_step cam rel b)) as [I1 I2].
    destruct (lens_step_bound cam rel b Hb) as [S1 S2].
    set (r' := lens_step cam rel b) in *.
    set (r'' := foldl (lens_step cam) r' l) in *.
    pose proof (Rabs_triang (r''.1 - r'.1) (r'.1 - rel.1)) as T1.
    pose proof (Rabs_triang (r''.2 - r'.2) (r'.2 - rel.2)) as T2.
    replace (r''.1 - r'.1 + (r'.1 - rel.1)) with (r''.1 - rel.1) in T1 by ring.
    replace (r''.2 - r'.2 + (r'.2 - rel.2)) with (r''.2 - rel.2) in T2 by ring.
    split; lra.
Qed.

Lemma lens_fold_no_hole (cam : Camera) (bodies : list Body) (rel : R * R) :
  Forall (fun b => body_type b <> "blackhole"%string) bodies ->
  foldl (lens_step cam) rel bodies = rel.
Proof.
  induction 1 as [|b l Hb _ IH]; [done|].
  cbn [foldl]. unfold lens_step at 2.
  apply String.eqb_neq in Hb. by rewrite Hb.
Qed.

(** X18.  Lensing moves the image of a background star by at most
    [0.00045·Σ(m + 1)] pixels along each axis, the sum taken over the black
    holes of the list, when no mass is negative; with no black hole in the
    list the star is drawn where the camera and its parallax put it. *)
Theorem lensing_is_bounded (cam : Camera) (bodies : list Body) (wx wy p : R) :
  Forall (fun b => 0 <= mass b) bodies ->
  Rabs ((lensed_star cam bodies wx wy p).1 - (world_to_screen cam wx wy p).1)
  <= 9 / 20000 * total_lens_weight bodies
  /\ Rabs ((lensed_star cam bodies wx wy p).2 - (world_to_screen cam wx wy p).2)
     <= 9 / 20000 * total_lens_weight bodies
  /\ (Forall (fun b => body_type b <> "blackhole"%string) bodies ->
      lensed_star cam bodies wx wy p = world_to_screen cam wx wy p).
Proof.
  intros Hall.
  destruct (lens_fold_bound cam bodies (world_to_screen cam wx wy p) Hall).
  repeat split; [done | done | apply lens_fold_no_hole].
Qed.

Lemma lensing_is_bounded_witness :
  Rabs ((lensed_star initial_camera [planet_a; light_hole] 1 1 (1 / 2)).1
        - (world_to_screen initial_camera 1 1 (1 / 2)).1)
  <= 9 / 20000 * (mass light_hole + 1)
  /\ lensed_star initial_camera [planet_a; big_star] 1 1 (1 / 2)
     = world_to_screen initial_camera 1 1 (1 / 2).
Proof.
  destruct (lensing_is_bounded initial_camera [planet_a; light_hole]
              1 1 (1 / 2)) as (H1 & _ & _).
  { repeat constructor; cbn; lra. }
  destruct (lensing_is_bounded initial_camera [planet_a; big_star]
              1 1 (1 / 2)) as (_ & _ & H3).
  { repeat constructor; cbn; lra. }
  split.
  - unfold total_lens_weight in H1. cbn in H1. cbn. lra.
  - apply H3. repeat constructor; cbn; discriminate.
Defined.

(** ** Angular momentum under the integration step *)

Lemma first_of_vsum {A} (f : A -> R) (l : list A) :
  vsum ((fun x => (f x, 0)) <$> l) = (foldr Rplus 0 (f <$> l), 0).
Proof.
  induction l as [|x l IH]; [done|].
  cbn [fmap list_fmap foldr]. rewrite vsum_cons, IH.
  unfold vadd. cbn. f_equal. lra.
Qed.

Lemma torque_antisymmetric (b b' : Body) :
  (mass b * cross (position b) (pull (position b) b'), 0)
  = vneg (mass b' * cross (position b') (pull (position b') b), 0).
Proof.
  unfold pull, cross, smulv, vdivs, vneg, vsub. cbn [fst snd].
  replace (vdot ((position b).1 - (position b').1, (position b).2 - (position b').2)
                ((position b).1 - (position b').1, (position b).2 - (position b').2))
    with (vdot ((position b').1 - (position b).1, (position b').2 - (position b).2)
               ((position b').1 - (position b).1, (position b').2 - (position b).2))
    by (unfold vdot; cbn; ring).
  unfold Rdiv. f_equal; ring.
Qed.

Lemma torque_sum (m : R) (p : vec) (l : list Body) :
  vsum ((fun b' => (m * cross p (pull p b'), 0)) <$> l)
  = (m * cross p (vsum (pull p <$> l)), 0).
Proof.
  induction l as [|x l IH].
  - unfold cross, vsum, vzero. cbn. f_equal. ring.
  - cbn [fmap list_fmap]. rewrite !vsum_cons, IH.
    unfold cross, vadd. cbn. f_equal; ring.
Qed.

(** Gravity exerts no net torque. *)
Lemma net_torque_gravity (bodies : list Body) :
  foldr Rplus 0 (imap (fun i b => mass b * cross (position b) (gravity bodies i b))
                      bodies) = 0.
Proof.
  set (f := fun b b' : Body =>
              (mass b * cross (position b) (pull (position b) b'), 0)).
  rewrite (imap_ext _ (fun _ b => G * (vsum (f b <$> bodies)).1)).
  2:{ intros i b Hb. cbn beta. rewrite (gravity_all bodies i b Hb).
      subst f. cbn beta. rewrite torque_sum. unfold cross, smulv. cbn. ring. }
  rewrite <- fmap_as_imap.
  assert (Hz : vsum ((fun b => vsum (f b <$> bodies)) <$> bodies) = vzero).
  { apply (vsum_antisymmetric f). intros x y. apply torque_antisymmetric. }
  assert (Hpair : forall b, vsum (f b <$> bodies)
                            = ((vsum (f b <$> bodies)).1, 0)).
  { intros b. subst f. cbn beta. by rewrite torque_sum. }
  pose proof (first_of_vsum (fun b => (vsum (f b <$> bodies)).1) bodies) as Hf.
  assert (Hl : (fun b => ((vsum (f b <$> bodies)).1, 0)) <$> bodies
               = (fun b => vsum (f b <$> bodies)) <$> bodies).
  { apply list_fmap_ext. intros _ b _. symmetry. apply Hpair. }
  cbn beta in Hf. rewrite Hl, Hz in Hf. unfold vzero in Hf. injection Hf as Hf.
  assert (Hscale : forall l : list Body,
            foldr Rplus 0 ((fun b => G * (vsum (f b <$> bodies)).1) <$> l)
            = G * foldr Rplus 0 ((fun b => (vsum (f b <$> bodies)).1) <$> l)).
  { intros l. induction l as [|x l IH]; cbn [fmap list_fmap foldr]; [lra|].
    rewrite IH. ring. }
  rewrite Hscale, <- Hf. ring.
Qed.

Lemma rsum_imap_add {A} (g h : nat -> A -> R) (l : list A) :
  foldr Rplus 0 (imap (fun i x => g i x + h i x) l)
  = foldr Rplus 0 (imap g l) + foldr Rplus 0 (imap h l).
Proof.
  revert g h. induction l as [|x l IH]; intros g h; [cbn; lra|].
  rewrite !imap_cons. cbn [foldr].
  pose proof (IH (g ∘ S) (h ∘ S)) as IH'. unfold compose in *.
  rewrite IH'. lra.
Qed.

Lemma rsum_imap_scale {A} (s : R) (g : nat -> A -> R) (l : list A) :
  foldr Rplus 0 (imap (fun i x => s * g i x) l) = s * foldr Rplus 0 (imap g l).
Proof.
  revert g. induction l as [|x l IH]; intros g; [cbn; lra|].
  rewrite !imap_cons. cbn [foldr].
  pose proof (IH (g ∘ S)) as IH'. unfold compose in *. rewrite IH'. lra.
Qed.

Lemma net_torque_moved (bodies : list Body) (dt : R) :
  foldr Rplus 0
    (imap (fun i b => mass b * cross (stepped_position bodies dt i b)
                        (gravity (moved bodies dt) i
                           (set_state b (stepped_position bodies dt i b)
                                      (velocity b))))
          bodies) = 0.
Proof.
  etrans; [|apply (net_torque_gravity (moved bodies dt))].
  f_equal. apply list_eq; intros i.
  unfold moved at 3. rewrite !list_lookup_imap.
  by destruct (bodies !! i).
Qed.

Lemma total_angular_momentum_verlet (bodies : list Body) (dt : R) :
  total_angular_momentum (verlet bodies dt) = total_angular_momentum bodies.
Proof.
  unfold total_angular_momentum, verlet. rewrite fmap_imap.
  set (t := fun i b => mass b * cross (position b) (gravity bodies i b)).
  set (t' := fun i b => mass b * cross (stepped_position bodies dt i b)
                          (gravity (moved bodies dt) i
                             (set_state b (stepped_position bodies dt i b)
                                        (velocity b)))).
  rewrite (imap_ext _
             (fun i b => angular_momentum b + (dt / 2 * t i b + dt / 2 * t' i b))).
  - rewrite rsum_imap_add, rsum_imap_add, !rsum_imap_scale.
    subst t t'. rewrite net_torque_moved, net_torque_gravity.
    rewrite <- fmap_as_imap.
    change (fun x : Body => angular_momentum x) with angular_momentum. lra.
  - intros i b _. subst t t'. cbn beta.
    unfold angular_momentum, compose, set_state. cbn [mass position velocity].
    unfold stepped_velocity, stepped_position, half_velocity.
    generalize (gravity bodies i b).
    generalize (gravity (moved bodies dt) i
                  {| oid := oid b;
                     position := vadd (position b)
                       (vmuls (vadd (velocity b)
                                 (vmuls (smulv (1 / 2) (gravity bodies i b)) dt)) dt);
                     velocity := velocity b; mass := mass b; radius := radius b;
                     color := color b; body_type := body_type b |}).
    destruct (position b) as [p1 p2], (velocity b) as [v1 v2].
    intros [a1 a2] [g1 g2]. unfold cross, vadd, vmuls, smulv. cbn. field.
Qed.

(** X19.  One integration step leaves the total angular momentum
    [Σ m_i·(p_i × v_i)] of the body set as it was, whatever the time
    step. *)
Theorem step_conserves_angular_momentum (bodies : list Body) (dt : R) :
  total_angular_momentum (velocity_verlet_step bodies dt)
  = total_angular_momentum bodies.
Proof.
  rewrite velocity_verlet_step_verlet. apply total_angular_momentum_verlet.
Qed.

(** ** A step followed by a collision pass *)

(** X20.  An integration step followed by a collision pass, the two calls
    [GravitySimApp.step] opens with, conserves the total mass and the total
    momentum of bodies of positive mass and radius.  What [step] does after
    them, the supernova countdowns, is not part of this statement. *)
Theorem step_then_collisions_conserve {Src} (bodies : list Body) (dt : R)
    (w : World Src) :
  Forall live bodies ->
  total_mass (handle_collisions (velocity_verlet_step bodies dt) w).1.1
  = total_mass bodies
  /\ total_momentum (handle_collisions (velocity_verlet_step bodies dt) w).1.1
     = total_momentum bodies.
Proof.
  intros Hlive. rewrite velocity_verlet_step_verlet.
  pose proof (verlet_live bodies dt Hlive) as Hstep.
  pose proof (proj1 (Forall_forall _ _) Hstep) as Hin.
  split.
  - pose proof (handle_collisions_quantity (fun b => (mass b, 0))
                  (verlet bodies dt) w) as Hmass.
    rewrite !total_mass_as_vsum in Hmass.
    assert (Heq : (total_mass (handle_collisions (verlet bodies dt) w).1.1, 0)
                  = (total_mass (verlet bodies dt), 0)).
    { apply Hmass. intros bi bj w' _ _.
      destruct (hc_merged_physics bi bj w') as [-> _].
      unfold vadd. cbn. f_equal. lra. }
    injection Heq as ->. unfold total_mass.
    by destruct (verlet_keeps bodies dt) as (_ & -> & _).
  - rewrite <- (total_momentum_verlet bodies dt).
    apply handle_collisions_quantity. intros bi bj w' Hi Hj.
    destruct (Hin bi Hi) as [Hmi _]. destruct (Hin bj Hj) as [Hmj _].
    destruct (hc_merged_physics bi bj w') as (Hm & _ & Hv & _).
    destruct (merge_bodies_fields bi bj w') as (_ & _ & _ & Hv' & _).
    unfold momentum. rewrite Hm, Hv, Hv'.
    unfold vdivs, vadd, vmuls, smulv; cbn [fst snd]; f_equal; field; lra.
Qed.

Lemma step_then_collisions_conserve_witness :
  total_mass (handle_collisions
                (velocity_verlet_step [planet_a; planet_b] (1 / 1000))
                sample_world).1.1
  = total_mass [planet_a; planet_b]
  /\ total_momentum (handle_collisions
                       (velocity_verlet_step [planet_a; planet_b] (1 / 1000))
                       sample_world).1.1
     = total_momentum [planet_a; planet_b].
Proof.
  apply (step_then_collisions_conserve [planet_a; planet_b] (1 / 1000)
           sample_world).
  repeat constructor; cbn; lra.
Defined.
